(** * time_tracker: entry model, duration derivation, redistribution, storage

    A shallow embedding of [time_tracker.py].  Python values are modelled as
    follows.

    - [str] is [string], its characters the code points below 256;
      comparison of strings is by code point, which is [String.compare].
    - [int] is [Z].
    - [float] is modelled twice.  The functions of the program use exact
      rationals [Q]: sums, products and quotients are the real-number
      ones, and equalities between them are stated with [==].  Module
      [Binary64] repeats the arithmetic of the redistribution in IEEE 754
      binary64, the arithmetic the interpreter performs, to evaluate it on
      given days.
    - An exception is a value of [PyError]; code that can raise returns a
      [result].
    - [datetime.now()] is an input of the functions that call it.
    - [print] appends to a list of [Output] events ([Run] monad); a printed
      table is the event carrying the records it was given.  The table
      renderer [format_table_dict] is modelled on its own, with the table
      of the entries as its instance. *)

From Stdlib Require Import ZArith QArith Qfield List String Ascii Bool Lia.
From Stdlib Require Import Permutation Sorting.Sorted Setoid Morphisms.
From Stdlib Require PrimFloat Uint63.
Import ListNotations.

Local Open Scope Z_scope.

(** ** Exceptions and results *)

Inductive PyError : Type :=
| ValueError          (* strptime on a malformed time string *)
| ZeroDivisionError   (* float division by zero *)
| TypeError           (* constructor called with a non-string keyword *)
| CsvError            (* csv.Error *)
| OSError.            (* file system failure *)

Inductive result (A : Type) : Type :=
| Ok (a : A)
| Raise (e : PyError).
Arguments Ok {A} a.
Arguments Raise {A} e.

Definition rbind {A B} (r : result A) (f : A -> result B) : result B :=
  match r with
  | Ok a => f a
  | Raise e => Raise e
  end.

Notation "x <- r ;; k" := (rbind r (fun x => k))
  (at level 61, r at next level, right associativity).

(** A list comprehension whose element expression can raise: the first
    exception aborts the whole comprehension. *)
Fixpoint map_result {A B} (f : A -> result B) (l : list A) : result (list B) :=
  match l with
  | [] => Ok []
  | a :: l' => b <- f a ;; bs <- map_result f l' ;; Ok (b :: bs)
  end.

(** ** The entry record *)

Record CsvEntry : Type := mkCsvEntry {
  description : string;
  start_time : string;
  context : string;
  is_finish : bool;
  is_minor : bool
}.

(** The time-of-day part of a [datetime]; the date is never used. *)
Record datetime : Type := mkdatetime { hour : nat; minute : nat; second : nat }.

(** ** [datetime.strptime(t, '%H:%M')] and [strftime('%H:%M')] *)

Definition is_digit (c : ascii) : bool :=
  ((48 <=? nat_of_ascii c) && (nat_of_ascii c <=? 57))%nat.

Definition digit_val (c : ascii) : nat := (nat_of_ascii c - 48)%nat.

(** The directive [%H] is the regular expression [2[0-3]|[0-1]\d|\d]:
    the two-digit alternatives are tried first.  Returns the value and the
    unread rest. *)
Definition match_H (s : string) : option (nat * string) :=
  match s with
  | String c1 rest =>
      if is_digit c1 then
        match rest with
        | String c2 rest' =>
            if is_digit c2 &&
               (((digit_val c1 =? 2) && (digit_val c2 <=? 3)) || (digit_val c1 <=? 1))%nat
            then Some (10 * digit_val c1 + digit_val c2, rest')%nat
            else Some (digit_val c1, rest)
        | EmptyString => Some (digit_val c1, rest)
        end
      else None
  | EmptyString => None
  end.

(** The directive [%M] is [[0-5]\d|\d]. *)
Definition match_M (s : string) : option (nat * string) :=
  match s with
  | String c1 rest =>
      if is_digit c1 then
        match rest with
        | String c2 rest' =>
            if is_digit c2 && (digit_val c1 <=? 5)%nat
            then Some (10 * digit_val c1 + digit_val c2, rest')%nat
            else Some (digit_val c1, rest)
        | EmptyString => Some (digit_val c1, rest)
        end
      else None
  | EmptyString => None
  end.

(** [strptime] raises [ValueError] when the pattern does not match at the
    start of the string, and also when it matches but characters remain. *)
Definition strptime_HM (t : string) : result datetime :=
  match match_H t with
  | Some (h, String ":" rest) =>
      match match_M rest with
      | Some (m, EmptyString) => Ok (mkdatetime h m 0)
      | _ => Raise ValueError
      end
  | _ => Raise ValueError
  end.

Definition digit_char (n : nat) : ascii := ascii_of_nat (48 + n).

(** [%02d] for a number below 100. *)
Definition pad2 (n : nat) : string :=
  String (digit_char (n / 10)) (String (digit_char (n mod 10)) EmptyString).

Definition strftime_HM (t : datetime) : string :=
  (pad2 (hour t) ++ ":" ++ pad2 (minute t))%string.

(** What the clock can show. *)
Definition valid_clock (t : datetime) : Prop :=
  (hour t < 24)%nat /\ (minute t < 60)%nat /\ (second t < 60)%nat.

(** ** Duration derivation ([print_summary], first part) *)

(** [time_to_minutes], the local function of [print_summary]. *)
Definition time_to_minutes (t : string) : result Z :=
  parsed <- strptime_HM t ;;
  Ok (Z.of_nat (minute parsed) + 60 * Z.of_nat (hour parsed)).

(** [now.minute + 60 * now.hour]. *)
Definition now_minutes (now : datetime) : Z :=
  Z.of_nat (minute now) + 60 * Z.of_nat (hour now).

(** [[end - start for start, end in zip(tm[:-1], tm[1:])]]. *)
Definition differences (tm : list Z) : list Z :=
  map (fun p => snd p - fst p) (combine (removelast tm) (tl tm)).

Definition durations (entries : list CsvEntry) (now : datetime) : result (list Z) :=
  time_minutes <- map_result (fun e => time_to_minutes (start_time e)) entries ;;
  let time_minutes := time_minutes ++ [now_minutes now] in
  Ok (differences time_minutes).

(** ** Minor-time redistribution ([print_summary], second part) *)

(** [sum] over integers and over floats: a left fold from [0]. *)
Definition sum_Z (l : list Z) : Z := fold_left Z.add l 0.
Definition sum_Q (l : list Q) : Q := fold_left Qplus l (0 # 1).

Definition total_time (durations : list Z) (entries : list CsvEntry) : Z :=
  sum_Z (map (fun '(d, e) => if negb (is_finish e) then d else 0)
             (combine durations entries)).

Definition major_time (durations : list Z) (entries : list CsvEntry) : Z :=
  sum_Z (map (fun '(d, e) =>
                if negb (is_finish e) && negb (is_minor e) then d else 0)
             (combine durations entries)).

(** True division [a / b] with a float operand. *)
Definition float_div (a b : Q) : result Q :=
  if Qeq_bool b (0 # 1) then Raise ZeroDivisionError else Ok (a / b)%Q.

(** [float(total_time) / major_time]. *)
Definition stretch_factor (total major : Z) : result Q :=
  float_div (inject_Z total) (inject_Z major).

Module MajorEntry.
Record t : Type := mk {
  description : string;
  original_minutes : Z;
  minutes : Q;
  hours : Q;
  context : string
}.
End MajorEntry.

Definition major_entries (entries : list CsvEntry) (durations : list Z)
    (stretch_factor : Q) : list MajorEntry.t :=
  map (fun '(e, d) =>
         MajorEntry.mk (description e) d
           (inject_Z d * stretch_factor)%Q
           (inject_Z d * stretch_factor / inject_Z 60)%Q
           (context e))
      (filter (fun '(e, d) => negb (is_minor e) && negb (is_finish e))
              (combine entries durations)).

(** The same arithmetic in binary64.  [sum] adds from left to right, as the
    interpreter does up to version 3.11; later versions carry a correction
    term, which does not change the sum of two numbers. *)
Module Binary64.

(** [float(z)], exact for an integer below 2^53 in absolute value. *)
Definition of_int (z : Z) : PrimFloat.float :=
  if z <? 0 then PrimFloat.opp (PrimFloat.of_uint63 (Uint63.of_Z (- z)))
  else PrimFloat.of_uint63 (Uint63.of_Z z).

Definition stretch_factor (total major : Z) : result PrimFloat.float :=
  if major =? 0 then Raise ZeroDivisionError
  else Ok (PrimFloat.div (of_int total) (of_int major)).

(** The field [minutes] of the major records. *)
Definition minutes (entries : list CsvEntry) (durations : list Z)
    (stretch_factor : PrimFloat.float) : list PrimFloat.float :=
  map (fun '(e, d) => PrimFloat.mul (of_int d) stretch_factor)
      (filter (fun '(e, d) => negb (is_minor e) && negb (is_finish e))
              (combine entries durations)).

Definition sum (l : list PrimFloat.float) : PrimFloat.float :=
  fold_left PrimFloat.add l (of_int 0).

End Binary64.

(** ** Context aggregation ([print_summary], third part) *)

(** [set(...)] over strings, as a duplicate-free list.  Python leaves the
    iteration order of a set unspecified; nothing below depends on it. *)
Definition set_of (l : list string) : list string := nodup string_dec l.

Module ContextEntry.
Record t : Type := mk {
  context : string;
  original_minutes : Z;
  minutes : Q;
  hours : Q;
  tasks : list string
}.
End ContextEntry.

Definition in_context (c : string) (e : MajorEntry.t) : bool :=
  (MajorEntry.context e =? c)%string.

Definition contextEntries (major : list MajorEntry.t) : list ContextEntry.t :=
  let contexts := set_of (map MajorEntry.context major) in
  map (fun c =>
         ContextEntry.mk c
           (sum_Z (map MajorEntry.original_minutes (filter (in_context c) major)))
           (sum_Q (map MajorEntry.minutes (filter (in_context c) major)))
           (sum_Q (map MajorEntry.hours (filter (in_context c) major)))
           (set_of (map MajorEntry.description (filter (in_context c) major))))
      contexts.

(** ** Standard output *)

Inductive Output : Type :=
| OutText (s : string)
| OutEntries (label : string) (es : list CsvEntry)   (* format_table(entries) *)
| OutMajor (ms : list MajorEntry.t)                  (* format_table(major_entries) *)
| OutContexts (cs : list ContextEntry.t)             (* format_table(contextEntries) *)
| OutTotalHours (h : Q)                              (* 'Total hours: {:.2f}' *)
| OutLog (msg : string) (detail : string)            (* log(verbose, ...) *)
| OutError (e : PyError)                             (* print(f'Error {e}') *)
| OutTraceback (e : PyError).                        (* traceback.print_exc() *)

(** A computation that prints and may raise: what was printed before an
    exception stays printed. *)
Definition Run (A : Type) : Type := (list Output * result A)%type.

Definition ret {A} (a : A) : Run A := ([], Ok a).

Definition bind {A B} (m : Run A) (f : A -> Run B) : Run B :=
  match m with
  | (out, Ok a) => let '(out', r) := f a in (out ++ out', r)
  | (out, Raise e) => (out, Raise e)
  end.

Definition lift {A} (r : result A) : Run A := ([], r).

Definition print (o : Output) : Run unit := ([o], Ok tt).

Notation "x <~ m ;; k" := (bind m (fun x => k))
  (at level 61, m at next level, right associativity).
Notation "m ;;; k" := (bind m (fun _ => k))
  (at level 61, right associativity).

(** [log(verbose, *args)]. *)
Definition log (verbose : bool) (msg detail : string) : Run unit :=
  if verbose then print (OutLog msg detail) else ret tt.

(** ** [print_summary] *)

Definition print_summary (entries : list CsvEntry) (now : datetime) : Run unit :=
  durations <~ lift (durations entries now) ;;
  let total_time := total_time durations entries in
  let major_time := major_time durations entries in
  stretch_factor <~ lift (stretch_factor total_time major_time) ;;
  let major_entries := major_entries entries durations stretch_factor in
  let contextEntries := contextEntries major_entries in
  print (OutText "Major Entries") ;;;
  print (OutMajor major_entries) ;;;
  print (OutText "Sums across contexts") ;;;
  print (OutContexts contextEntries) ;;;
  print (OutTotalHours (sum_Q (map MajorEntry.hours major_entries))).

Definition print_entries (entries : list CsvEntry) (now : datetime) : Run unit :=
  print (OutEntries "" entries) ;;;
  print_summary entries now.

(** ** [list.sort(key=lambda e: e.start_time)]

    [list.sort] is a stable sort; the keys are strings, compared by code
    point.  Insertion from the right places an element before every element
    of the already sorted tail whose key is not smaller, which is the stable
    order. *)
Section Sort.
Context {A : Type} (key : A -> string).

Fixpoint insert (x : A) (l : list A) : list A :=
  match l with
  | [] => [x]
  | y :: l' =>
      if (key x <=? key y)%string then x :: y :: l' else y :: insert x l'
  end.

Fixpoint sort (l : list A) : list A :=
  match l with
  | [] => []
  | x :: l' => insert x (sort l')
  end.

(** Non-decreasing by key, and the test for a given key. *)
Definition key_le (a b : A) : Prop := (key a <=? key b)%string = true.

Definition has_key (k : string) (a : A) : bool := (key a =? k)%string.
End Sort.

Definition sort_by_start_time : list CsvEntry -> list CsvEntry :=
  sort (fun e => start_time e).

(** ** Command line arguments

    The namespace returned by [cmdline_args]; the fields after [verbose]
    exist only in write mode. *)
Inductive Mode : Type := ModeRead | ModeWrite.

Module Args.
Record t : Type := mk {
  mode : option Mode;
  verbose : bool;
  description : string;
  stop : bool;
  time : option string;
  context : option string;
  minor : bool
}.
End Args.

(** ** [add_entry]

    The Python function appends to the list it is given and sorts it in
    place; the model returns the resulting list. *)
Definition add_entry (entries : list CsvEntry) (args : Args.t) (now : datetime)
    : Run (list CsvEntry) :=
  timestamp <~ lift (match Args.time args with
                     | Some t => strptime_HM t
                     | None => Ok now
                     end) ;;
  let timestr := strftime_HM timestamp in
  log (Args.verbose args) "Logging Time" timestr ;;;
  let context := match Args.context args with
                 | Some c => c
                 | None => Args.description args
                 end in
  let entries :=
    if negb (Args.stop args)
    then entries ++ [mkCsvEntry (Args.description args) timestr context false (Args.minor args)]
    else entries ++ [mkCsvEntry "" timestr context true (Args.minor args)] in
  ret (sort_by_start_time entries).

(** ** Character buffers

    A buffer holds the characters read so far, last one first;
    [string_of_buffer buf ""] is the string read. *)
Fixpoint string_of_buffer (buf : list ascii) (tail : string) : string :=
  match buf with
  | [] => tail
  | c :: buf' => string_of_buffer buf' (String c tail)
  end.

(** ** The [csv] module, dialect [excel]

    Delimiter [,], quote character double quote, [doublequote] on, no escape
    character, line terminator CR LF, [QUOTE_MINIMAL], not strict.  The
    writer and the reader follow the module's implementation in CPython 3.11
    and later (a NUL character is an ordinary character). *)
Module csv.

Definition CR : ascii := "013"%char.
Definition LF : ascii := "010"%char.
Definition quotechar : ascii := "034"%char.
Definition delimiter : ascii := ","%char.
Definition lineterminator : string := String CR (String LF EmptyString).

(** *** Writer *)

(** A character that forces the field to be quoted. *)
Definition special (c : ascii) : bool :=
  (c =? delimiter)%char || (c =? quotechar)%char || (c =? CR)%char || (c =? LF)%char.

Fixpoint has_special (s : string) : bool :=
  match s with
  | EmptyString => false
  | String c s' => special c || has_special s'
  end.

(** The field data as copied into the record: a quote character is
    written twice. *)
Fixpoint double_quotes (s : string) : string :=
  match s with
  | EmptyString => EmptyString
  | String c s' =>
      if (c =? quotechar)%char
      then String quotechar (String quotechar (double_quotes s'))
      else String c (double_quotes s')
  end.

Definition join_append_data (field : string) : string :=
  if has_special field
  then String quotechar (double_quotes field ++ String quotechar EmptyString)
  else field.

Fixpoint join_fields (fields : list string) : string :=
  match fields with
  | [] => EmptyString
  | [f] => join_append_data f
  | f :: fs => (join_append_data f ++ String delimiter (join_fields fs))%string
  end.

(** [writer.writerow]: the text written for one row.  A row made of a
    single empty field is written as an empty quoted field. *)
Definition writerow (fields : list string) : string :=
  let rec := join_fields fields in
  let rec := match fields, rec with
             | _ :: _, EmptyString => String quotechar (String quotechar EmptyString)
             | _, _ => rec
             end in
  (rec ++ lineterminator)%string.

Definition writerows (rows : list (list string)) : string :=
  String.concat EmptyString (map writerow rows).

(** *** Reader *)

Inductive ParserState : Type :=
| START_RECORD | START_FIELD | IN_FIELD | IN_QUOTED_FIELD
| QUOTE_IN_QUOTED_FIELD | EAT_CRNL.

(** [csv.field_size_limit()]. *)
Definition field_limit : N := 131072.

(** The reader object: parser state, the fields of the record read so
    far, and the characters of the current field, last one first. *)
Record ReaderObj : Type := mkReader {
  state : ParserState;
  fields : list string;
  field : list ascii;
  field_len : N
}.

Definition parse_reset : ReaderObj := mkReader START_RECORD [] [] 0.

Definition set_state (r : ReaderObj) (s : ParserState) : ReaderObj :=
  mkReader s (fields r) (field r) (field_len r).

Definition parse_save_field (r : ReaderObj) : ReaderObj :=
  mkReader (state r)
           (fields r ++ [string_of_buffer (field r) EmptyString])
           [] 0.

Definition parse_add_char (r : ReaderObj) (c : ascii) : result ReaderObj :=
  if (field_limit <=? field_len r)%N then Raise CsvError
  else Ok (mkReader (state r) (fields r) (c :: field r) (field_len r + 1)).

Definition is_newline (c : ascii) : bool := (c =? LF)%char || (c =? CR)%char.

(** The case [START_FIELD] of the parser, which the case [START_RECORD]
    falls through to on an ordinary character. *)
Definition start_field (r : ReaderObj) (c : option ascii) : result ReaderObj :=
  match c with
  | None => Ok (set_state (parse_save_field r) START_RECORD)
  | Some ch =>
      if is_newline ch then Ok (set_state (parse_save_field r) EAT_CRNL)
      else if (ch =? quotechar)%char then Ok (set_state r IN_QUOTED_FIELD)
      else if (ch =? delimiter)%char
      then Ok (set_state (parse_save_field r) START_FIELD)
      else r' <- parse_add_char r ch ;; Ok (set_state r' IN_FIELD)
  end.

(** One step of the parser; [None] is the end-of-line signal sent after
    the last character of every line. *)
Definition parse_process_char (r : ReaderObj) (c : option ascii)
    : result ReaderObj :=
  match state r with
  | START_RECORD =>
      match c with
      | None => Ok r
      | Some ch =>
          if is_newline ch then Ok (set_state r EAT_CRNL)
          else start_field (set_state r START_FIELD) c
      end
  | START_FIELD => start_field r c
  | IN_FIELD =>
      match c with
      | None => Ok (set_state (parse_save_field r) START_RECORD)
      | Some ch =>
          if is_newline ch then Ok (set_state (parse_save_field r) EAT_CRNL)
          else if (ch =? delimiter)%char
          then Ok (set_state (parse_save_field r) START_FIELD)
          else parse_add_char r ch
      end
  | IN_QUOTED_FIELD =>
      match c with
      | None => Ok r
      | Some ch =>
          if (ch =? quotechar)%char then Ok (set_state r QUOTE_IN_QUOTED_FIELD)
          else parse_add_char r ch
      end
  | QUOTE_IN_QUOTED_FIELD =>
      match c with
      | None => Ok (set_state (parse_save_field r) START_RECORD)
      | Some ch =>
          if (ch =? quotechar)%char
          then r' <- parse_add_char r ch ;; Ok (set_state r' IN_QUOTED_FIELD)
          else if (ch =? delimiter)%char
          then Ok (set_state (parse_save_field r) START_FIELD)
          else if is_newline ch
          then Ok (set_state (parse_save_field r) EAT_CRNL)
          else r' <- parse_add_char r ch ;; Ok (set_state r' IN_FIELD)
      end
  | EAT_CRNL =>
      match c with
      | None => Ok (set_state r START_RECORD)
      | Some ch => if is_newline ch then Ok r else Raise CsvError
      end
  end.

(** The characters of one line, then the end-of-line signal. *)
Fixpoint feed_line (r : ReaderObj) (line : string) : result ReaderObj :=
  match line with
  | EmptyString => parse_process_char r None
  | String c rest => r' <- parse_process_char r (Some c) ;; feed_line r' rest
  end.

(** [list(csv.reader(lines))]: a record ends with the first line after
    which the parser is back in [START_RECORD]; when the input ends inside
    a record, the record is returned only if a field is under way. *)
Fixpoint reader_rows (r : ReaderObj) (lines : list string)
    : result (list (list string)) :=
  match lines with
  | [] =>
      if (0 <? field_len r)%N
         || match state r with IN_QUOTED_FIELD => true | _ => false end
      then Ok [fields (parse_save_field r)]
      else Ok []
  | line :: rest =>
      r' <- feed_line r line ;;
      match state r' with
      | START_RECORD =>
          rows <- reader_rows parse_reset rest ;; Ok (fields r' :: rows)
      | _ => reader_rows r' rest
      end
  end.

Definition reader (lines : list string) : result (list (list string)) :=
  reader_rows parse_reset lines.

(** [DictReader] skips the rows that are empty lists. *)
Definition nonempty_rows (rows : list (list string)) : list (list string) :=
  filter (fun row => match row with [] => false | _ => true end) rows.

End csv.

(** ** Text files opened with [newline='']

    Iterating over the file yields its lines; a line ends after LF, after
    CR LF, or after a CR that is not followed by LF, and keeps its ending.
    [cur] holds the characters of the line under way, last one first. *)
Fixpoint file_lines_from (cur : list ascii) (s : string) : list string :=
  match s with
  | EmptyString =>
      match cur with
      | [] => []
      | _ => [string_of_buffer cur EmptyString]
      end
  | String c s' =>
      if (c =? csv.LF)%char then
        string_of_buffer (c :: cur) EmptyString :: file_lines_from [] s'
      else if (c =? csv.CR)%char then
        match s' with
        | String c' s'' =>
            if (c' =? csv.LF)%char
            then string_of_buffer (c' :: c :: cur) EmptyString :: file_lines_from [] s''
            else string_of_buffer (c :: cur) EmptyString :: file_lines_from [] s'
        | EmptyString => [string_of_buffer (c :: cur) EmptyString]
        end
      else file_lines_from (c :: cur) s'
  end.

Definition file_lines (content : string) : list string :=
  file_lines_from [] content.

(** ** Entries as rows *)

Definition CsvFields : list string :=
  ["description"; "start_time"; "context"; "is_finish"; "is_minor"]%string.

(** [str(True)] and [str(False)]. *)
Definition str_bool (b : bool) : string :=
  if b then "True"%string else "False"%string.

(** The values of [asdict(entry)] in field order, each converted by the
    writer with [str]. *)
Definition row_of_entry (e : CsvEntry) : list string :=
  [description e; start_time e; context e;
   str_bool (is_finish e); str_bool (is_minor e)].

(** [__post_init__] on a field that holds a string. *)
Definition post_init (field : string) : bool := (field =? str_bool true)%string.

(** The constructor call on the dictionary [DictReader] makes of a row.  A row
    longer than the field names binds the rest to the key [None], which the
    constructor rejects.  A shorter row leaves the missing fields [None]:
    such an object is not a value of [CsvEntry], the answer is [None]. *)
Definition entry_of_row (row : list string) : option (result CsvEntry) :=
  match row with
  | [d; s; c; f; m] => Some (Ok (mkCsvEntry d s c (post_init f) (post_init m)))
  | _ :: _ :: _ :: _ :: _ :: _ :: _ => Some (Raise TypeError)
  | _ => None
  end.

(** The comprehension that builds one entry per row, in order. *)
Fixpoint entries_of_rows (rows : list (list string))
    : option (result (list CsvEntry)) :=
  match rows with
  | [] => Some (Ok [])
  | row :: rows' =>
      match entry_of_row row with
      | Some (Raise e) => Some (Raise e)
      | Some (Ok x) =>
          match entries_of_rows rows' with
          | Some (Ok xs) => Some (Ok (x :: xs))
          | other => other
          end
      | None =>
          match entries_of_rows rows' with
          | Some (Raise e) => Some (Raise e)
          | _ => None
          end
      end
  end.

(** ** The day's file *)

Record World : Type := mkWorld {
  file : option string;              (* today's file, when it exists *)
  backup : list (string * string);   (* backup directory: name, content *)
  readable : bool;
  writable : bool
}.

(** The text [write_entries] puts in the file: header, then one row per
    entry. *)
Definition file_content (entries : list CsvEntry) : string :=
  (csv.writerow CsvFields ++ csv.writerows (map row_of_entry entries))%string.

(** [list(reader)[1:]] turned into entries. *)
Definition load (content : string) : option (result (list CsvEntry)) :=
  match csv.reader (file_lines content) with
  | Ok rows => entries_of_rows (tl (csv.nonempty_rows rows))
  | Raise e => Some (Raise e)
  end.

Definition read_entries (w : World) : option (result (list CsvEntry)) :=
  match file w with
  | None => Some (Ok [])
  | Some content => if readable w then load content else Some (Raise OSError)
  end.

(** [strftime("%H%M%S")]. *)
Definition strftime_HMS (t : datetime) : string :=
  (pad2 (hour t) ++ pad2 (minute t) ++ pad2 (second t))%string.

Definition write_entries (entries : list CsvEntry) (verbose : bool)
    (now : datetime) (w : World) : Run World :=
  if negb (writable w) then lift (Raise OSError) else
  w' <~ match file w with
        | Some old =>
            log verbose "Backing up" (strftime_HMS now) ;;;
            ret (mkWorld (file w) ((strftime_HMS now, old) :: backup w)
                         (readable w) (writable w))
        | None => ret w
        end ;;
  log verbose "Writing modified entries to" "" ;;;
  ret (mkWorld (Some (file_content entries)) (backup w') (readable w') (writable w')).

(** ** The program *)

Record Process : Type := mkProcess {
  stdout : list Output;
  world : World;
  exit_status : Z
}.

(** The body of the [try] statement. *)
Definition body (args : Args.t) (now : datetime) (w : World)
    : option (Run World) :=
  match read_entries w with
  | None => None
  | Some loaded => Some (
      log (Args.verbose args) "Arguments: " "" ;;;
      log (Args.verbose args) "Opening" "" ;;;
      entries <~ lift loaded ;;
      let entries := sort_by_start_time entries in
      (if Args.verbose args then print (OutEntries "Entries" entries) else ret tt) ;;;
      match Args.mode args with
      | Some ModeWrite =>
          entries <~ add_entry entries args now ;;
          print (OutEntries "New Entries:" entries) ;;;
          write_entries entries (Args.verbose args) now w
      | Some ModeRead =>
          print_entries entries now ;;;
          ret w
      | None => ret w
      end)
  end.

(** The [try] statement with its handler.  The handler prints and returns;
    the script then ends, and the interpreter exits with status 0. *)
Definition main (args : Args.t) (now : datetime) (w : World) : option Process :=
  match body args now w with
  | None => None
  | Some (out, Ok w') => Some (mkProcess out w' 0)
  | Some (out, Raise e) =>
      Some (mkProcess (out ++ [OutError e; OutTraceback e]) w 0)
  end.

(** ** The reader over the text of a file, in one pass

    [csv.reader (file_lines content)] cuts the text into lines and then
    parses them.  [scan] does both at once, character by character; it is
    the form the proofs work with, and it is shown below to compute the
    same rows. *)

(** Where the scan stands in the current line: nothing read yet, something
    read, or a CR read last whose line is not yet known to be ended (an LF
    may follow). *)
Inductive LineState : Type := LineStart | LineOpen | LineAfterCR.

(** The end-of-line signal, and the record handed over when it completes
    one. *)
Definition end_of_line (r : csv.ReaderObj)
    (k : csv.ReaderObj -> result (list (list string)))
    : result (list (list string)) :=
  r' <- csv.parse_process_char r None ;;
  match csv.state r' with
  | csv.START_RECORD => rows <- k csv.parse_reset ;; Ok (csv.fields r' :: rows)
  | _ => k r'
  end.

Fixpoint scan (r : csv.ReaderObj) (ls : LineState) (s : string)
    : result (list (list string)) :=
  match s with
  | EmptyString =>
      match ls with
      | LineStart => csv.reader_rows r []
      | _ => end_of_line r (fun r' => csv.reader_rows r' [])
      end
  | String c s' =>
      let char (r : csv.ReaderObj) :=
        r' <- csv.parse_process_char r (Some c) ;;
        if (c =? csv.LF)%char
        then end_of_line r' (fun r'' => scan r'' LineStart s')
        else if (c =? csv.CR)%char then scan r' LineAfterCR s'
        else scan r' LineOpen s' in
      match ls with
      | LineAfterCR =>
          if (c =? csv.LF)%char
          then r' <- csv.parse_process_char r (Some c) ;;
               end_of_line r' (fun r'' => scan r'' LineStart s')
          else end_of_line r char
      | _ => char r
      end
  end.

(** The step of [scan] on the character [c], [s'] being what follows. *)
Definition scan_char (c : ascii) (s' : string) (r : csv.ReaderObj)
    : result (list (list string)) :=
  r' <- csv.parse_process_char r (Some c) ;;
  if (c =? csv.LF)%char
  then end_of_line r' (fun r'' => scan r'' LineStart s')
  else if (c =? csv.CR)%char then scan r' LineAfterCR s'
  else scan r' LineOpen s'.

(** The line state that goes with the characters read of the current
    line. *)
Definition line_state_of (cur : list ascii) : LineState :=
  match cur with
  | [] => LineStart
  | _ => LineOpen
  end.

(** The characters of a line without the end-of-line signal. *)
Fixpoint feed_chars (r : csv.ReaderObj) (l : list ascii) : result csv.ReaderObj :=
  match l with
  | [] => Ok r
  | c :: l' => r' <- csv.parse_process_char r (Some c) ;; feed_chars r' l'
  end.

(** The reader [r0] fed with the buffer [cur] arrives at [r], or raises. *)
Definition fed (r0 : csv.ReaderObj) (cur : list ascii) (r : csv.ReaderObj) : Prop :=
  feed_chars r0 (rev cur) = Ok r.

Definition failed (r0 : csv.ReaderObj) (cur : list ascii) (e : PyError) : Prop :=
  feed_chars r0 (rev cur) = Raise e.

(** The buffer after the characters of [f] are added to it. *)
Fixpoint push (f : string) (buf : list ascii) : list ascii :=
  match f with
  | EmptyString => buf
  | String c f' => push f' (c :: buf)
  end.

(** The length of a string as the reader counts it. *)
Definition len (f : string) : N := N.of_nat (String.length f).

(** A state in which a new field may begin. *)
Definition at_start (st : csv.ParserState) : Prop :=
  st = csv.START_RECORD \/ st = csv.START_FIELD.

(** The line state after a character that is not a line end by itself. *)
Definition next_line_state (c : ascii) : LineState :=
  if (c =? csv.LF)%char then LineStart
  else if (c =? csv.CR)%char then LineAfterCR
  else LineOpen.

(** A state in which the text of a field has been read. *)
Definition field_read (st : csv.ParserState) : Prop :=
  st = csv.START_FIELD \/ st = csv.IN_FIELD \/ st = csv.QUOTE_IN_QUOTED_FIELD.

(** ** Entries the reader accepts *)

(** The three text fields are within [csv.field_size_limit()]. *)
Definition within_field_limit (e : CsvEntry) : Prop :=
  (len (description e) <= csv.field_limit)%N /\
  (len (start_time e) <= csv.field_limit)%N /\
  (len (context e) <= csv.field_limit)%N.

(** ** Example days *)

Definition ten_oclock : datetime := mkdatetime 10 0 0.
Definition half_past_nine : datetime := mkdatetime 9 30 0.

(** Two major tasks around a minor one. *)
Definition scenario_A : list CsvEntry :=
  [mkCsvEntry "Write code" "09:00" "Project" false false;
   mkCsvEntry "Email" "09:30" "Project" false true;
   mkCsvEntry "Write code" "09:45" "Project" false false]%string.

(** Its durations when read at ten. *)
Definition durations_A : list Z := [30; 15; 15].



(** A list that is not in time order. *)
Definition unsorted_day : list CsvEntry :=
  [mkCsvEntry "b" "09:45" "b" false false;
   mkCsvEntry "a" "09:00" "a" false false]%string.

(** A minor task logged with [--time 10:00], read at 09:30. *)
Definition minor_ahead_of_now : list CsvEntry :=
  [mkCsvEntry "a" "09:00" "a" false false;
   mkCsvEntry "b" "10:00" "b" false true]%string.

(** A day with a minor task and a stop entry, nothing else. *)
Definition no_major_day : list CsvEntry :=
  [mkCsvEntry "Email" "09:00" "Mail" false true;
   mkCsvEntry "" "09:20" "Mail" true false]%string.

(** A task, then [write --stop "going home"] at five. *)
Definition first_task : CsvEntry :=
  mkCsvEntry "Write code" "09:00" "Write code" false false.

Definition stop_request : Args.t :=
  Args.mk (Some ModeWrite) false "going home" true None None false.

Definition stop_entry : CsvEntry :=
  mkCsvEntry "" "17:00" "going home" true false.

Definition day_with_stop : list CsvEntry := [first_task; stop_entry].

(** A first run of the day in read mode: no file yet. *)
Definition read_request : Args.t :=
  Args.mk (Some ModeRead) false "" false None None false.

Definition no_file_yet : World := mkWorld None [] true true.

(** [write "Lunch" --time noon]: the time is not of the form [HH:MM]. *)
Definition bad_time_request : Args.t :=
  Args.mk (Some ModeWrite) false "Lunch" false (Some "noon"%string) None false.

(** [say "hi", then] and, on a second line, [leave]. *)
Definition quoted_text : string :=
  ("say " ++ String csv.quotechar ("hi" ++ String csv.quotechar
     (", then" ++ String csv.LF "leave")))%string.

(** The letter [a], [n] times. *)
Definition long_text (n : N) : string := N.iter n (String "a"%char) EmptyString.

(** An entry whose description is one character longer than the field
    size limit of the reader. *)
Definition long_entry : CsvEntry :=
  mkCsvEntry (long_text 131073) "09:00" "long" false false.

(** ** Entries written by the program *)

(** The start time is one [add_entry] writes: [strftime] of a time of day. *)
Definition written (e : CsvEntry) : Prop :=
  exists t, valid_clock t /\ start_time e = strftime_HM t.

(** The minutes of a start time, 0 when it cannot be read. *)
Definition minutes_or_zero (e : CsvEntry) : Z :=
  match time_to_minutes (start_time e) with
  | Ok m => m
  | Raise _ => 0
  end.

(** A day with a start time edited by hand. *)
Definition hand_edited_day : list CsvEntry :=
  [mkCsvEntry "Write code" "09:00" "Project" false false;
   mkCsvEntry "Lunch" "12.30" "Break" false false]%string.

(** ** Major entries *)

(** An entry that gets a record of its own in the summary. *)
Definition is_major (e : CsvEntry) : bool := negb (is_minor e) && negb (is_finish e).

(** ** The order of the entries *)

(** Sorted by start time, as a predicate on lists of entries. *)
Definition sorted_by_start_time (entries : list CsvEntry) : Prop :=
  StronglySorted (fun a b => (start_time a <=? start_time b)%string = true) entries.

(** The entries that do not start after [e], and those that do. *)
Definition not_after (e x : CsvEntry) : bool :=
  (start_time x <=? start_time e)%string.

Definition after (e x : CsvEntry) : bool := negb (not_after e x).

(** The entry [add_entry] appends for a request stamped [timestamp]. *)
Definition appended_entry (args : Args.t) (timestamp : datetime) : CsvEntry :=
  let context := match Args.context args with
                 | Some c => c
                 | None => Args.description args
                 end in
  if negb (Args.stop args)
  then mkCsvEntry (Args.description args) (strftime_HM timestamp) context false
                  (Args.minor args)
  else mkCsvEntry EmptyString (strftime_HM timestamp) context true (Args.minor args).

(** The time of a request: [--time] when given, the clock otherwise. *)
Definition request_time (args : Args.t) (now : datetime) : result datetime :=
  match Args.time args with
  | Some t => strptime_HM t
  | None => Ok now
  end.

(** ** The reader and the field size limit *)


(** ** Tables

    [format_table_dict] lays a list of dictionaries out as a table.  A
    dictionary is the list of its items in insertion order.  What [format]
    does to a value is a parameter of the section; the instance for the
    fields of a [CsvEntry] follows it. *)

(** [c * n] for a character [c]. *)
Fixpoint replicate (n : nat) (c : ascii) : string :=
  match n with
  | O => EmptyString
  | S n' => String c (replicate n' c)
  end.

(** [s.ljust(w)]. *)
Definition ljust (s : string) (w : nat) : string :=
  (s ++ replicate (w - String.length s) " ")%string.

(** [sep.join(l)]. *)
Fixpoint join (sep : string) (l : list string) : string :=
  match l with
  | [] => EmptyString
  | x :: l' =>
      match l' with
      | [] => x
      | _ :: _ => (x ++ sep ++ join sep l')%string
      end
  end.

Definition newline : string := String "010"%char EmptyString.

Section FormatTable.
Context {V : Type}.
Variable format : V -> string.

(** The generator [entry_length] of one pass of the loop over the entries. *)
Definition entry_length (entry : list (string * V)) : list nat :=
  map (fun '(k, v) => Nat.max (String.length k) (String.length (format v))) entry.

(** One pass of the loop: [zip] stops at the shorter list. *)
Definition widen (widths : list nat) (entry : list (string * V)) : list nat :=
  map (fun '(a, b) => Nat.max a b) (combine widths (entry_length entry)).

(** [widths] after the loop, for a table whose first entry is [first]. *)
Definition column_widths (first : list (string * V))
    (entries : list (list (string * V))) : list nat :=
  fold_left widen entries (repeat 0%nat (List.length first)).

Definition header_cells (first : list (string * V)) (widths : list nat)
    : list string :=
  map (fun '(k, w) => ljust k w) (combine (map fst first) widths).

Definition rule_cells (widths : list nat) : list string :=
  map (fun w => replicate w "-") widths.

Definition row_cells (widths : list nat) (entry : list (string * V))
    : list string :=
  map (fun '(e, w) => ljust (format e) w) (combine (map snd entry) widths).

Definition format_table_dict (entries : list (list (string * V))) : string :=
  match entries with
  | [] => EmptyString
  | first :: _ =>
      let widths := column_widths first entries in
      let s := (join " " (header_cells first widths) ++ newline)%string in
      let s := (s ++ join " " (rule_cells widths) ++ newline)%string in
      fold_left
        (fun s entry => (s ++ join " " (row_cells widths entry) ++ newline)%string)
        entries s
  end.

End FormatTable.

(** The value of a field of a [CsvEntry]. *)
Inductive Field : Type :=
| Text (s : string)
| Flag (b : bool).

(** [format] on such a value: it is no float, the text is [str(x)]. *)
Definition format (x : Field) : string :=
  match x with
  | Text s => s
  | Flag b => str_bool b
  end.

(** [asdict(entry)]. *)
Definition asdict (e : CsvEntry) : list (string * Field) :=
  [("description", Text (description e)); ("start_time", Text (start_time e));
   ("context", Text (context e)); ("is_finish", Flag (is_finish e));
   ("is_minor", Flag (is_minor e))]%string.

(** [format_table] on a list of entries. *)
Definition format_table (entries : list CsvEntry) : string :=
  format_table_dict format (map asdict entries).

(** The text made of the given lines, each ended by a line feed. *)
Fixpoint unlines (lines : list string) : string :=
  match lines with
  | [] => EmptyString
  | l :: lines' => (l ++ newline ++ unlines lines')%string
  end.

(** The cells of a table, line by line: header, rule, one line per entry. *)
Definition table_cells {V} (format : V -> string)
    (first : list (string * V)) (entries : list (list (string * V)))
    : list (list string) :=
  let widths := column_widths format first entries in
  header_cells first widths :: rule_cells widths
    :: map (row_cells format widths) entries.

(** The length of the longest of the texts, and at least [n]. *)
Definition longest (n : nat) (texts : list string) : nat :=
  fold_left Nat.max (map String.length texts) n.

(** The widths of the columns of a table of entries. *)
Definition entry_widths (entries : list CsvEntry) : list nat :=
  [longest 11 (map description entries); longest 10 (map start_time entries);
   longest 7 (map context entries); 9; 8]%nat.

(** The texts, each filled up with spaces to the width of its column, with
    one space between two columns. *)
Definition padded (texts : list string) (widths : list nat) : string :=
  join " " (map (fun '(t, w) => ljust t w) (combine texts widths)).

(** ** Runs of the program *)

(** The request with the verbose flag set to [b]. *)
Definition with_verbose (b : bool) (args : Args.t) : Args.t :=
  Args.mk (Args.mode args) b (Args.description args) (Args.stop args)
          (Args.time args) (Args.context args) (Args.minor args).

(** The state of the files after a run whose body ended with [r]. *)
Definition world_after (w : World) (r : result World) : World :=
  match r with
  | Ok w' => w'
  | Raise _ => w
  end.

(** The handler has reported the exception [e] at the end of the output. *)
Definition reports (p : Process) (e : PyError) : Prop :=
  exists out, stdout p = out ++ [OutError e; OutTraceback e].

(** * Properties *)

(** ** Results *)

Lemma map_result_Forall2 {A B} (f : A -> result B) (l : list A) (bs : list B) :
  map_result f l = Ok bs <-> Forall2 (fun a b => f a = Ok b) l bs.
Proof.
  revert bs. induction l as [|a l IH]; intros bs; simpl.
  - split; intros H.
    + injection H as <-. constructor.
    + inversion H. reflexivity.
  - split; intros H.
    + destruct (f a) as [b|e] eqn:Ha; simpl in H; [|discriminate].
      destruct (map_result f l) as [bs'|e] eqn:Hl; simpl in H; [|discriminate].
      injection H as <-. constructor; [assumption|]. now apply IH.
    + inversion H as [|a' b l' bs' Hab Hrest]; subst.
      rewrite Hab. simpl. apply IH in Hrest. rewrite Hrest. reflexivity.
Qed.

(** ** Duration derivation *)

Lemma differences_cons (a b : Z) (l : list Z) :
  differences (a :: b :: l) = (b - a) :: differences (b :: l).
Proof. reflexivity. Qed.

Lemma differences_length (tm : list Z) :
  List.length (differences tm) = pred (List.length tm).
Proof.
  induction tm as [|a [|b l] IH]; try reflexivity.
  rewrite differences_cons. simpl List.length in *. now rewrite IH.
Qed.

Lemma differences_nth (tm : list Z) (i : nat) :
  (S i < List.length tm)%nat ->
  nth i (differences tm) 0 = nth (S i) tm 0 - nth i tm 0.
Proof.
  revert i. induction tm as [|a [|b l] IH]; intros i Hi; simpl in Hi; try lia.
  rewrite differences_cons. destruct i as [|i].
  - reflexivity.
  - change (nth i (differences (b :: l)) 0 = nth (S i) (b :: l) 0 - nth i (b :: l) 0).
    apply IH. simpl. lia.
Qed.

(** C3.  When the start times of the [n] entries parse to the minutes [ms],
    the deriver returns exactly [n] durations, and the duration of entry [i]
    is the difference of the boundaries [i+1] and [i], where the boundaries
    are [ms] followed by the minutes of "now".  The difference is taken in
    the integers: nothing clamps it. *)
Theorem durations_successive_differences
    (entries : list CsvEntry) (now : datetime) (ms : list Z) :
  Forall2 (fun e m => time_to_minutes (start_time e) = Ok m) entries ms ->
  let boundary := ms ++ [now_minutes now] in
  exists ds,
    durations entries now = Ok ds /\
    List.length ds = List.length entries /\
    forall i, (i < List.length entries)%nat ->
      nth i ds 0 = nth (S i) boundary 0 - nth i boundary 0.
Proof.
  intros H boundary.
  pose proof (Forall2_length H) as Hlen.
  apply (map_result_Forall2 (fun e => time_to_minutes (start_time e))) in H.
  exists (differences boundary). unfold durations. rewrite H. simpl.
  split; [reflexivity|]. split.
  - rewrite differences_length. unfold boundary. rewrite length_app. simpl. lia.
  - intros i Hi. apply differences_nth. unfold boundary.
    rewrite length_app. simpl. lia.
Qed.

Lemma durations_successive_differences_witness :
  exists ds,
    durations scenario_A ten_oclock = Ok ds /\
    List.length ds = 3%nat /\
    forall i, (i < 3)%nat ->
      nth i ds 0 = nth (S i) [540; 570; 585; 600] 0 - nth i [540; 570; 585; 600] 0.
Proof.
  apply (durations_successive_differences scenario_A ten_oclock [540; 570; 585]).
  repeat constructor.
Defined.

(** Scenario A of the specification. *)
Example durations_scenario_A : durations scenario_A ten_oclock = Ok [30; 15; 15].
Proof. reflexivity. Qed.

(** A list that is out of order yields a negative duration. *)
Example durations_unsorted_negative :
  durations unsorted_day ten_oclock = Ok [-45; 60].
Proof. reflexivity. Qed.

(** A start time that is not of the form [HH:MM] makes the derivation
    raise. *)
Lemma durations_raises (entries1 entries2 : list CsvEntry) (e : CsvEntry)
    (now : datetime) (ms : list Z) :
  Forall2 (fun e m => time_to_minutes (start_time e) = Ok m) entries1 ms ->
  strptime_HM (start_time e) = Raise ValueError ->
  durations (entries1 ++ e :: entries2) now = Raise ValueError.
Proof.
  intros H He. unfold durations.
  assert (Hm : map_result (fun e => time_to_minutes (start_time e))
                 (entries1 ++ e :: entries2) = Raise ValueError).
  { induction H as [|a m l ms' Ham _ IH]; simpl.
    - unfold time_to_minutes. rewrite He. reflexivity.
    - rewrite Ham. simpl. rewrite IH. reflexivity. }
  rewrite Hm. reflexivity.
Qed.

(** ** Sums *)

Lemma fold_left_Zadd_acc (l : list Z) (a : Z) :
  fold_left Z.add l a = a + fold_left Z.add l 0.
Proof.
  revert a. induction l as [|x l IH]; intros a; simpl.
  - lia.
  - rewrite (IH (a + x)), (IH x). lia.
Qed.

Lemma sum_Z_cons (x : Z) (l : list Z) : sum_Z (x :: l) = x + sum_Z l.
Proof. unfold sum_Z. simpl. apply fold_left_Zadd_acc. Qed.



(** ** Totals and major records, one entry at a time *)

Lemma total_time_cons (d : Z) (ds : list Z) (e : CsvEntry) (es : list CsvEntry) :
  total_time (d :: ds) (e :: es) =
  (if is_finish e then 0 else d) + total_time ds es.
Proof.
  unfold total_time. simpl combine. simpl map. rewrite sum_Z_cons.
  now destruct (is_finish e).
Qed.

Lemma major_time_cons (d : Z) (ds : list Z) (e : CsvEntry) (es : list CsvEntry) :
  major_time (d :: ds) (e :: es) =
  (if is_finish e || is_minor e then 0 else d) + major_time ds es.
Proof.
  unfold major_time. simpl combine. simpl map. rewrite sum_Z_cons.
  now destruct (is_finish e), (is_minor e).
Qed.

Lemma total_time_nil_r (ds : list Z) : total_time ds [] = 0.
Proof. now destruct ds. Qed.

Lemma major_time_nil_r (ds : list Z) : major_time ds [] = 0.
Proof. now destruct ds. Qed.

Lemma major_entries_cons (e : CsvEntry) (es : list CsvEntry) (d : Z)
    (ds : list Z) (sf : Q) :
  major_entries (e :: es) (d :: ds) sf =
  if is_finish e || is_minor e then major_entries es ds sf
  else MajorEntry.mk (description e) d (inject_Z d * sf)%Q
         (inject_Z d * sf / inject_Z 60)%Q (context e)
       :: major_entries es ds sf.
Proof.
  unfold major_entries. simpl combine. simpl filter.
  now destruct (is_finish e), (is_minor e).
Qed.




(** ** The stretch factor *)

Lemma stretch_factor_Ok (total major : Z) (sf : Q) :
  stretch_factor total major = Ok sf <->
  major <> 0 /\ sf = (inject_Z total / inject_Z major)%Q.
Proof.
  unfold stretch_factor, float_div.
  destruct (Qeq_bool (inject_Z major) (0 # 1)) eqn:Hz.
  - apply Qeq_bool_iff in Hz. unfold Qeq in Hz. simpl in Hz.
    split; [discriminate|]. intros [Hne _]. lia.
  - apply Qeq_bool_neq in Hz. split.
    + intros H. injection H as <-. split; [|reflexivity].
      intros ->. apply Hz. reflexivity.
    + intros [_ ->]. reflexivity.
Qed.

Lemma stretch_factor_zero (total : Z) :
  stretch_factor total 0 = Raise ZeroDivisionError.
Proof. reflexivity. Qed.

Lemma inject_Z_nonzero (z : Z) : z <> 0 -> ~ (inject_Z z == 0)%Q.
Proof. intros Hz H. unfold Qeq in H. simpl in H. lia. Qed.


(** ** Redistribution *)




(** On Scenario A the binary64 sum is exact. *)
Example adjusted_minutes_scenario_A_binary64 :
  exists sf,
    Binary64.stretch_factor 60 45 = Ok sf /\
    Binary64.minutes scenario_A durations_A sf
      = [Binary64.of_int 40; Binary64.of_int 20] /\
    Binary64.sum (Binary64.minutes scenario_A durations_A sf) = Binary64.of_int 60.
Proof.
  eexists. split; [reflexivity|]. split; vm_compute; reflexivity.
Qed.

(** Scenario A of the specification: the factor is 4/3, the two major
    entries are stretched from 30 and 15 to 40 and 20 minutes. *)
Example stretch_scenario_A :
  exists sf,
    stretch_factor (total_time durations_A scenario_A)
                   (major_time durations_A scenario_A) = Ok sf /\
    (sf == 4 # 3)%Q /\
    Forall2 Qeq
      (map MajorEntry.minutes (major_entries scenario_A durations_A sf))
      [inject_Z 40; inject_Z 20].
Proof.
  eexists. split; [reflexivity|]. split; [reflexivity|].
  repeat constructor.
Qed.

(** The division by zero ends [print_summary] before it prints. *)
Lemma print_summary_Raise (entries : list CsvEntry) (now : datetime) (ds : list Z) :
  durations entries now = Ok ds ->
  major_time ds entries = 0 ->
  print_summary entries now = ([], Raise ZeroDivisionError).
Proof.
  intros Hd Hz. unfold print_summary. rewrite Hd.
  unfold lift at 1. unfold bind at 1. rewrite Hz.
  rewrite stretch_factor_zero. reflexivity.
Qed.

(** C2.  When the major minutes are zero, the division that computes the
    stretch factor raises: [print_summary] ends with the exception
    [ZeroDivisionError] (the specification's NoMajorWorkError) and has
    printed nothing; no factor, record or total is produced. *)
Theorem zero_major_raises
    (entries : list CsvEntry) (now : datetime) (ds : list Z) :
  durations entries now = Ok ds ->
  major_time ds entries = 0 ->
  print_summary entries now = ([], Raise ZeroDivisionError) /\
  stretch_factor (total_time ds entries) (major_time ds entries)
    = Raise ZeroDivisionError.
Proof.
  intros Hd Hz. split; [now apply (print_summary_Raise _ _ ds)|].
  rewrite Hz. apply stretch_factor_zero.
Qed.

(** A day made of minor and finish entries only, or of no entry, has zero
    major minutes. *)
Lemma major_time_only_minor_or_finish (entries : list CsvEntry) (ds : list Z) :
  Forall (fun e => is_finish e = true \/ is_minor e = true) entries ->
  major_time ds entries = 0.
Proof.
  intros H. revert ds. induction H as [|e es He _ IH]; intros ds.
  - apply major_time_nil_r.
  - destruct ds as [|d ds]; [reflexivity|].
    rewrite major_time_cons, IH.
    destruct He as [-> | ->]; [reflexivity|].
    now rewrite orb_true_r.
Qed.

Lemma zero_major_raises_witness :
  print_summary no_major_day ten_oclock = ([], Raise ZeroDivisionError).
Proof.
  apply (zero_major_raises no_major_day ten_oclock [20; 40]).
  - reflexivity.
  - apply major_time_only_minor_or_finish.
    repeat apply Forall_cons; try apply Forall_nil; simpl; auto.
Defined.

Example zero_major_no_entries (now : datetime) :
  print_summary [] now = ([], Raise ZeroDivisionError).
Proof. reflexivity. Qed.

(** ** Bound on the stretch factor *)

Lemma major_le_total (entries : list CsvEntry) (ds : list Z) :
  Forall (fun '(d, e) => is_finish e = false -> is_minor e = true -> 0 <= d)
         (combine ds entries) ->
  major_time ds entries <= total_time ds entries.
Proof.
  revert ds. induction entries as [|e es IH]; intros ds H.
  - rewrite major_time_nil_r, total_time_nil_r. lia.
  - destruct ds as [|d ds]; [unfold major_time, total_time; simpl; lia|].
    simpl in H. inversion H as [|p l Hhd Htl]; subst.
    rewrite major_time_cons, total_time_cons.
    specialize (IH ds Htl).
    destruct (is_finish e), (is_minor e); simpl;
      try specialize (Hhd eq_refl eq_refl); lia.
Qed.

Lemma major_eq_total (entries : list CsvEntry) (ds : list Z) :
  Forall (fun e => is_finish e = false -> is_minor e = false) entries ->
  major_time ds entries = total_time ds entries.
Proof.
  intros H. revert ds. induction H as [|e es He _ IH]; intros ds.
  - now rewrite major_time_nil_r, total_time_nil_r.
  - destruct ds as [|d ds]; [reflexivity|].
    rewrite major_time_cons, total_time_cons, IH.
    destruct (is_finish e); [reflexivity|].
    now rewrite (He eq_refl).
Qed.

Lemma stretch_factor_ge_1_iff (total major : Z) (sf : Q) :
  0 < major ->
  stretch_factor total major = Ok sf ->
  (1 <= sf)%Q <-> major <= total.
Proof.
  intros Hpos Hsf. apply stretch_factor_Ok in Hsf. destruct Hsf as [_ ->].
  assert (Hq : (0 < inject_Z major)%Q) by (unfold Qlt; simpl; lia).
  split.
  - intros H. rewrite Zle_Qle.
    apply (Qmult_le_compat_r _ _ (inject_Z major)) in H; [|now apply Qlt_le_weak].
    rewrite Qmult_1_l in H.
    assert (E : (inject_Z total / inject_Z major * inject_Z major == inject_Z total)%Q)
      by (field; intros E; rewrite E in Hq; discriminate).
    now rewrite E in H.
  - intros H. apply Qle_shift_div_l; [assumption|].
    rewrite Qmult_1_l. now rewrite <- Zle_Qle.
Qed.

(** C4, as the code has it.  With positive major minutes, the stretch
    factor is at least 1 provided no minor entry that counts has a negative
    duration, and it is exactly 1 when no entry that counts is minor. *)
Theorem stretch_factor_bound (entries : list CsvEntry) (ds : list Z) (sf : Q) :
  0 < major_time ds entries ->
  stretch_factor (total_time ds entries) (major_time ds entries) = Ok sf ->
  (Forall (fun '(d, e) => is_finish e = false -> is_minor e = true -> 0 <= d)
          (combine ds entries) -> (1 <= sf)%Q) /\
  (Forall (fun e => is_finish e = false -> is_minor e = false) entries ->
   (sf == 1)%Q).
Proof.
  intros Hpos Hsf. split.
  - intros H. apply (stretch_factor_ge_1_iff _ _ _ Hpos Hsf).
    now apply major_le_total.
  - intros H. rewrite <- (major_eq_total _ _ H) in Hsf.
    apply stretch_factor_Ok in Hsf. destruct Hsf as [Hne ->].
    field. now apply inject_Z_nonzero.
Qed.

Lemma stretch_factor_bound_witness :
  (1 <= inject_Z 60 / inject_Z 45)%Q.
Proof.
  apply (stretch_factor_bound scenario_A durations_A
           (inject_Z 60 / inject_Z 45)%Q eq_refl eq_refl).
  repeat constructor; simpl; intros; lia.
Defined.

(** C4, as the specification has it, fails: a minor entry whose start lies
    after "now" has a negative duration, the total falls below the major
    minutes and the factor below 1. *)
Lemma stretch_factor_below_one :
  durations minor_ahead_of_now half_past_nine = Ok [60; -30] /\
  0 < major_time [60; -30] minor_ahead_of_now /\
  stretch_factor (total_time [60; -30] minor_ahead_of_now)
                 (major_time [60; -30] minor_ahead_of_now) = Ok (30 # 60)%Q /\
  ~ (1 <= 30 # 60)%Q.
Proof.
  repeat split. intros H. apply H. reflexivity.
Qed.

(** ** Finish entries *)

Section FinishEntry.
Variables (e : CsvEntry) (es2 : list CsvEntry) (d : Z) (ds2 : list Z).
Hypothesis Hfinish : is_finish e = true.

Lemma total_time_skip_finish (es1 : list CsvEntry) (ds1 : list Z) :
  List.length ds1 = List.length es1 ->
  total_time (ds1 ++ d :: ds2) (es1 ++ e :: es2)
  = total_time (ds1 ++ ds2) (es1 ++ es2).
Proof.
  revert ds1. induction es1 as [|x es1 IH]; intros [|d1 ds1] Hlen;
    try discriminate; simpl app.
  - rewrite total_time_cons, Hfinish. lia.
  - rewrite !total_time_cons, IH; [reflexivity|]. now injection Hlen.
Qed.

Lemma major_time_skip_finish (es1 : list CsvEntry) (ds1 : list Z) :
  List.length ds1 = List.length es1 ->
  major_time (ds1 ++ d :: ds2) (es1 ++ e :: es2)
  = major_time (ds1 ++ ds2) (es1 ++ es2).
Proof.
  revert ds1. induction es1 as [|x es1 IH]; intros [|d1 ds1] Hlen;
    try discriminate; simpl app.
  - rewrite major_time_cons, Hfinish. reflexivity.
  - rewrite !major_time_cons, IH; [reflexivity|]. now injection Hlen.
Qed.

Lemma major_entries_skip_finish (es1 : list CsvEntry) (ds1 : list Z) (sf : Q) :
  List.length ds1 = List.length es1 ->
  major_entries (es1 ++ e :: es2) (ds1 ++ d :: ds2) sf
  = major_entries (es1 ++ es2) (ds1 ++ ds2) sf.
Proof.
  revert ds1. induction es1 as [|x es1 IH]; intros [|d1 ds1] Hlen;
    try discriminate; simpl app.
  - rewrite major_entries_cons, Hfinish. reflexivity.
  - rewrite !major_entries_cons, IH; [reflexivity|]. now injection Hlen.
Qed.

End FinishEntry.

(** C8.  An entry with [is_finish] set adds nothing to the total minutes or
    to the major minutes, whatever its duration [d] is, and no major
    record, hence no context sum, comes from it: all four are what they are
    for the day without the entry. *)
Theorem finish_entry_contributes_zero
    (es1 es2 : list CsvEntry) (e : CsvEntry) (ds1 ds2 : list Z) (d : Z) (sf : Q) :
  is_finish e = true ->
  List.length ds1 = List.length es1 ->
  total_time (ds1 ++ d :: ds2) (es1 ++ e :: es2)
    = total_time (ds1 ++ ds2) (es1 ++ es2) /\
  major_time (ds1 ++ d :: ds2) (es1 ++ e :: es2)
    = major_time (ds1 ++ ds2) (es1 ++ es2) /\
  major_entries (es1 ++ e :: es2) (ds1 ++ d :: ds2) sf
    = major_entries (es1 ++ es2) (ds1 ++ ds2) sf /\
  contextEntries (major_entries (es1 ++ e :: es2) (ds1 ++ d :: ds2) sf)
    = contextEntries (major_entries (es1 ++ es2) (ds1 ++ ds2) sf).
Proof.
  intros Hf Hlen.
  pose proof (major_entries_skip_finish e es2 d ds2 Hf es1 ds1 sf Hlen) as Hm.
  repeat split.
  - now apply total_time_skip_finish.
  - now apply major_time_skip_finish.
  - exact Hm.
  - now rewrite Hm.
Qed.

Lemma finish_entry_contributes_zero_witness :
  total_time [480; 360] day_with_stop = total_time [480] [first_task].
Proof.
  exact (proj1 (finish_entry_contributes_zero [first_task] [] stop_entry
                  [480] [] 360 (1 # 1) eq_refl eq_refl)).
Defined.

(** ** The entry builder *)

(** C5.  When the time of the request is available (no [--time], or one
    that parses), [add_entry] appends one entry [e] and sorts.  For a stop
    request [e] has the empty description and [is_finish] set, the
    description of the request is not used for it; otherwise [e] has the
    description of the request and [is_finish] clear.  In both cases
    [is_minor] is the flag of the request. *)
Theorem add_entry_stop_semantics
    (entries : list CsvEntry) (args : Args.t) (now timestamp : datetime) :
  match Args.time args with
  | Some t => strptime_HM t
  | None => Ok now
  end = Ok timestamp ->
  exists e,
    snd (add_entry entries args now) = Ok (sort_by_start_time (entries ++ [e])) /\
    start_time e = strftime_HM timestamp /\
    is_minor e = Args.minor args /\
    if Args.stop args
    then description e = EmptyString /\ is_finish e = true
    else description e = Args.description args /\ is_finish e = false.
Proof.
  intros Ht. unfold add_entry. rewrite Ht.
  destruct (Args.stop args) eqn:Hstop; simpl negb; cbv iota.
  - eexists. split.
    + unfold lift, bind, log, ret, print.
      destruct (Args.verbose args); reflexivity.
    + simpl. auto.
  - eexists. split.
    + unfold lift, bind, log, ret, print.
      destruct (Args.verbose args); reflexivity.
    + simpl. auto.
Qed.

Lemma add_entry_stop_semantics_witness :
  exists e,
    snd (add_entry [first_task] stop_request (mkdatetime 17 0 0))
      = Ok (sort_by_start_time ([first_task] ++ [e])) /\
    start_time e = strftime_HM (mkdatetime 17 0 0) /\
    is_minor e = Args.minor stop_request /\
    if Args.stop stop_request
    then description e = EmptyString /\ is_finish e = true
    else description e = Args.description stop_request /\ is_finish e = false.
Proof.
  apply (add_entry_stop_semantics [first_task] stop_request
           (mkdatetime 17 0 0) (mkdatetime 17 0 0)).
  reflexivity.
Defined.

(** Scenario B of the specification: [write --stop] at the end of a day. *)
Example add_entry_scenario_B :
  add_entry [first_task] stop_request (mkdatetime 17 0 0) = ([], Ok day_with_stop).
Proof. reflexivity. Qed.

(** A [--time] that is not of the form [HH:MM] makes [add_entry] raise
    before anything is appended. *)
Lemma add_entry_bad_time (entries : list CsvEntry) (args : Args.t)
    (now : datetime) (t : string) :
  Args.time args = Some t ->
  strptime_HM t = Raise ValueError ->
  add_entry entries args now = ([], Raise ValueError).
Proof.
  intros Ht Hr. unfold add_entry. rewrite Ht, Hr. reflexivity.
Qed.

(** C10.  A stop request without [--context] appends a finish entry whose
    context is the description of the request, although its description is
    empty. *)
Theorem stop_entry_context_is_description
    (entries : list CsvEntry) (args : Args.t) (now timestamp : datetime) :
  match Args.time args with
  | Some t => strptime_HM t
  | None => Ok now
  end = Ok timestamp ->
  Args.stop args = true ->
  Args.context args = None ->
  exists e,
    snd (add_entry entries args now) = Ok (sort_by_start_time (entries ++ [e])) /\
    is_finish e = true /\
    description e = EmptyString /\
    context e = Args.description args.
Proof.
  intros Ht Hstop Hctx. unfold add_entry. rewrite Ht, Hstop, Hctx.
  eexists. split.
  - unfold lift, bind, log, ret, print.
    destruct (Args.verbose args); reflexivity.
  - simpl. auto.
Qed.

Lemma stop_entry_context_is_description_witness :
  exists e,
    snd (add_entry [first_task] stop_request (mkdatetime 17 0 0))
      = Ok (sort_by_start_time ([first_task] ++ [e])) /\
    is_finish e = true /\
    description e = EmptyString /\
    context e = "going home"%string.
Proof.
  apply (stop_entry_context_is_description [first_task] stop_request
           (mkdatetime 17 0 0) (mkdatetime 17 0 0)); reflexivity.
Defined.

(** ** Order of strings *)

Lemma ascii_compare_refl (a : ascii) : Ascii.compare a a = Eq.
Proof. unfold Ascii.compare. apply N.compare_refl. Qed.

Lemma ascii_compare_lt_trans (a b c : ascii) :
  Ascii.compare a b = Lt -> Ascii.compare b c = Lt -> Ascii.compare a c = Lt.
Proof.
  unfold Ascii.compare. rewrite !N.compare_lt_iff. lia.
Qed.

Lemma string_compare_refl (s : string) : String.compare s s = Eq.
Proof.
  induction s as [|a s IH]; simpl; [reflexivity|].
  now rewrite ascii_compare_refl.
Qed.

Lemma string_leb_refl (s : string) : (s <=? s)%string = true.
Proof. unfold String.leb. now rewrite string_compare_refl. Qed.

Lemma string_compare_not_gt_trans (x y z : string) :
  String.compare x y <> Gt -> String.compare y z <> Gt ->
  String.compare x z <> Gt.
Proof.
  revert y z. induction x as [|a x IH]; intros [|b y] [|c z]; simpl;
    try congruence.
  destruct (Ascii.compare a b) eqn:Hab; try congruence;
    destruct (Ascii.compare b c) eqn:Hbc; try congruence; intros Hxy Hyz.
  - apply Ascii.compare_eq_iff in Hab, Hbc. subst.
    rewrite ascii_compare_refl. now apply (IH y).
  - apply Ascii.compare_eq_iff in Hab. subst. now rewrite Hbc.
  - apply Ascii.compare_eq_iff in Hbc. subst. now rewrite Hab.
  - now rewrite (ascii_compare_lt_trans a b c).
Qed.

Lemma string_leb_trans (x y z : string) :
  (x <=? y)%string = true -> (y <=? z)%string = true -> (x <=? z)%string = true.
Proof.
  unfold String.leb. intros Hxy Hyz.
  pose proof (string_compare_not_gt_trans x y z) as H.
  destruct (String.compare x y); try discriminate;
    destruct (String.compare y z); try discriminate;
    destruct (String.compare x z); try reflexivity;
    exfalso; apply H; congruence.
Qed.

Lemma string_leb_false (x y : string) :
  (x <=? y)%string = false -> (y <=? x)%string = true /\ x <> y.
Proof.
  intros H. split.
  - destruct (String.leb_total x y) as [H'|H']; congruence.
  - intros ->. now rewrite string_leb_refl in H.
Qed.

(** ** The sort *)

Section SortFacts.
Context {A : Type} (key : A -> string).

Lemma insert_Permutation (x : A) (l : list A) :
  Permutation (x :: l) (insert key x l).
Proof.
  induction l as [|y l IH]; simpl; [reflexivity|].
  destruct (key x <=? key y)%string; [reflexivity|].
  rewrite perm_swap. now apply perm_skip.
Qed.

Lemma sort_Permutation (l : list A) : Permutation l (sort key l).
Proof.
  induction l as [|x l IH]; simpl; [constructor|].
  rewrite <- insert_Permutation. now apply perm_skip.
Qed.

Lemma insert_sorted (x : A) (l : list A) :
  StronglySorted (key_le key) l -> StronglySorted (key_le key) (insert key x l).
Proof.
  induction 1 as [|y l Hl IH Hy]; simpl.
  - repeat constructor.
  - destruct (key x <=? key y)%string eqn:Hxy.
    + constructor; [now constructor|].
      constructor; [exact Hxy|].
      revert Hy. apply Forall_impl. intros z Hz.
      unfold key_le in *. now apply (string_leb_trans _ (key y)).
    + constructor; [assumption|].
      apply (Permutation_Forall (insert_Permutation x l)).
      constructor; [|assumption].
      now apply string_leb_false in Hxy.
Qed.

Lemma sort_sorted (l : list A) : StronglySorted (key_le key) (sort key l).
Proof.
  induction l as [|x l IH]; simpl; [constructor|]. now apply insert_sorted.
Qed.

Lemma insert_stable (k : string) (x : A) (l : list A) :
  filter (has_key key k) (insert key x l) = filter (has_key key k) (x :: l).
Proof.
  induction l as [|y l IH]; [reflexivity|]. simpl insert.
  destruct (key x <=? key y)%string eqn:Hxy; [reflexivity|].
  apply string_leb_false in Hxy. destruct Hxy as [_ Hne].
  simpl filter in *. rewrite IH. unfold has_key.
  destruct (String.eqb_spec (key x) k) as [Hx|Hx];
    destruct (String.eqb_spec (key y) k) as [Hy|Hy]; try reflexivity.
  congruence.
Qed.

Lemma sort_stable (k : string) (l : list A) :
  filter (has_key key k) (sort key l) = filter (has_key key k) l.
Proof.
  induction l as [|x l IH]; [reflexivity|]. simpl sort.
  rewrite insert_stable. simpl. now rewrite IH.
Qed.

(** A list that is sorted by key and keeps, for every key, the elements
    having it in their original order is the list [sort] returns: the
    result of a stable sort does not depend on the algorithm. *)
Lemma stable_sorted_unique (l1 l2 : list A) :
  StronglySorted (key_le key) l1 -> StronglySorted (key_le key) l2 ->
  (forall k, filter (has_key key k) l1 = filter (has_key key k) l2) ->
  l1 = l2.
Proof.
  intros H1. revert l2. induction H1 as [|x l1 Hl1 IH Hx]; intros l2 H2 Hf.
  - destruct l2 as [|y l2]; [reflexivity|].
    specialize (Hf (key y)). simpl in Hf. unfold has_key in Hf.
    rewrite String.eqb_refl in Hf. discriminate.
  - destruct H2 as [|y l2 Hl2 Hy].
    + specialize (Hf (key x)). simpl in Hf. unfold has_key in Hf.
      rewrite String.eqb_refl in Hf. discriminate.
    + assert (Hxin : In x (y :: l2)).
      { apply (proj1 (filter_In (has_key key (key x)) x (y :: l2))).
        rewrite <- Hf. simpl. unfold has_key at 1.
        rewrite String.eqb_refl. now left. }
      assert (Hyin : In y (x :: l1)).
      { apply (proj1 (filter_In (has_key key (key y)) y (x :: l1))).
        rewrite Hf. simpl. unfold has_key at 1.
        rewrite String.eqb_refl. now left. }
      assert (Hk : key x = key y).
      { apply String.leb_antisym.
        - destruct Hyin as [->|Hyin]; [apply string_leb_refl|].
          rewrite Forall_forall in Hx. now apply Hx.
        - destruct Hxin as [->|Hxin]; [apply string_leb_refl|].
          rewrite Forall_forall in Hy. now apply Hy. }
      pose proof (Hf (key x)) as Hfx. simpl in Hfx. unfold has_key in Hfx.
      rewrite Hk, !String.eqb_refl in Hfx. injection Hfx as -> _.
      f_equal. apply IH; [assumption|].
      intros k. specialize (Hf k). simpl in Hf.
      destruct (has_key key k y); [now injection Hf|assumption].
Qed.

End SortFacts.


(** What [add_entry] returns is sorted, whatever list it was given. *)
Lemma add_entry_sorted (entries : list CsvEntry) (args : Args.t)
    (now : datetime) (entries' : list CsvEntry) :
  snd (add_entry entries args now) = Ok entries' ->
  StronglySorted (fun a b => (start_time a <=? start_time b)%string = true) entries'.
Proof.
  unfold add_entry.
  destruct (match Args.time args with Some t => strptime_HM t | None => Ok now end)
    as [ts|err]; [|discriminate].
  unfold lift, bind, log, ret, print.
  destruct (Args.verbose args), (negb (Args.stop args)); simpl;
    intros H; injection H as <-; apply (sort_sorted (fun e => start_time e)).
Qed.

(** Scenario C of the specification: an entry added at the time of an
    existing one goes after it. *)
Example sort_scenario_C :
  sort_by_start_time
    [mkCsvEntry "first" "09:30" "x" false false;
     mkCsvEntry "early" "09:00" "x" false false;
     mkCsvEntry "second" "09:30" "x" false false]
  = [mkCsvEntry "early" "09:00" "x" false false;
     mkCsvEntry "first" "09:30" "x" false false;
     mkCsvEntry "second" "09:30" "x" false false].
Proof. reflexivity. Qed.

(** ** The top level *)

Lemma bind_Raise {A B} (out : list Output) (e : PyError) (f : A -> Run B) :
  bind (out, Raise e) f = (out, Raise e).
Proof. reflexivity. Qed.

Lemma bind_Ok {A B} (out : list Output) (a : A) (f : A -> Run B) :
  bind (out, Ok a) f = (out ++ fst (f a), snd (f a)).
Proof. unfold bind. now destruct (f a). Qed.




(** The error kinds reach the handler from where they arise. *)

Lemma main_load_error (args : Args.t) (now : datetime) (w : World) (e : PyError) :
  read_entries w = Some (Raise e) ->
  exists out,
    main args now w = Some (mkProcess (out ++ [OutError e; OutTraceback e]) w 0).
Proof.
  intros Hr. unfold main, body. rewrite Hr.
  unfold log, lift, bind, ret, print.
  destruct (Args.verbose args); eexists; reflexivity.
Qed.

Lemma main_bad_time (now : datetime) (w : World) (entries : list CsvEntry) :
  read_entries w = Some (Ok entries) ->
  main bad_time_request now w
  = Some (mkProcess [OutError ValueError; OutTraceback ValueError] w 0).
Proof.
  intros Hr. unfold main, body. rewrite Hr. reflexivity.
Qed.

Lemma body_not_writable (args : Args.t) (now : datetime) (w : World)
    (entries : list CsvEntry) :
  read_entries w = Some (Ok entries) ->
  Args.mode args = Some ModeWrite ->
  Args.time args = None ->
  writable w = false ->
  exists out, body args now w = Some (out, Raise OSError).
Proof.
  intros Hr Hm Ht Hw. unfold body, add_entry, write_entries.
  rewrite Hr, Hm, Ht, Hw.
  unfold log, lift, bind, ret, print.
  destruct (Args.verbose args), (negb (Args.stop args)); simpl;
    eexists; reflexivity.
Qed.

Lemma body_zero_major (args : Args.t) (now : datetime) (w : World)
    (entries : list CsvEntry) (ds : list Z) :
  read_entries w = Some (Ok entries) ->
  Args.mode args = Some ModeRead ->
  durations (sort_by_start_time entries) now = Ok ds ->
  major_time ds (sort_by_start_time entries) = 0 ->
  exists out, body args now w = Some (out, Raise ZeroDivisionError).
Proof.
  intros Hr Hm Hd Hz. unfold body. rewrite Hr, Hm.
  unfold log, lift, ret, print.
  destruct (Args.verbose args); cbn [bind app]; unfold print_entries;
    rewrite (print_summary_Raise _ _ _ Hd Hz); unfold print;
    cbn [bind app]; eexists; reflexivity.
Qed.

(** ** Lines and the one-pass scan *)

Lemma rbind_assoc {A B C} (r : result A) (f : A -> result B) (g : B -> result C) :
  rbind (rbind r f) g = rbind r (fun a => rbind (f a) g).
Proof. now destruct r. Qed.

Lemma feed_chars_app (r : csv.ReaderObj) (l1 l2 : list ascii) :
  feed_chars r (l1 ++ l2) = r' <- feed_chars r l1 ;; feed_chars r' l2.
Proof.
  revert r. induction l1 as [|c l1 IH]; intros r; simpl; [reflexivity|].
  destruct (csv.parse_process_char r (Some c)); simpl; [apply IH|reflexivity].
Qed.

Lemma feed_line_buffer (r0 : csv.ReaderObj) (buf : list ascii) (tail : string) :
  csv.feed_line r0 (string_of_buffer buf tail)
  = r <- feed_chars r0 (rev buf) ;; csv.feed_line r tail.
Proof.
  revert tail. induction buf as [|c buf IH]; intros tail; simpl; [reflexivity|].
  rewrite IH, feed_chars_app, rbind_assoc. simpl.
  destruct (feed_chars r0 (rev buf)) as [r|e]; simpl; [|reflexivity].
  now destruct (csv.parse_process_char r (Some c)).
Qed.

Lemma file_lines_from_String (cur : list ascii) (c : ascii) (s' : string) :
  file_lines_from cur (String c s') =
  if (c =? csv.LF)%char
  then string_of_buffer (c :: cur) EmptyString :: file_lines_from [] s'
  else if (c =? csv.CR)%char
  then match s' with
       | String c' s'' =>
           if (c' =? csv.LF)%char
           then string_of_buffer (c' :: c :: cur) EmptyString :: file_lines_from [] s''
           else string_of_buffer (c :: cur) EmptyString :: file_lines_from [] s'
       | EmptyString => [string_of_buffer (c :: cur) EmptyString]
       end
  else file_lines_from (c :: cur) s'.
Proof. reflexivity. Qed.

Section Fed.
Variable r0 : csv.ReaderObj.

Lemma fed_nil (r : csv.ReaderObj) : fed r0 [] r -> r = r0.
Proof. unfold fed. simpl. congruence. Qed.

Lemma fed_cons (cur : list ascii) (r r' : csv.ReaderObj) (c : ascii) :
  fed r0 cur r -> csv.parse_process_char r (Some c) = Ok r' -> fed r0 (c :: cur) r'.
Proof.
  unfold fed. intros H Hc. simpl. rewrite feed_chars_app, H. simpl.
  now rewrite Hc.
Qed.

Lemma fed_failed (cur : list ascii) (r : csv.ReaderObj) (c : ascii) (e : PyError) :
  fed r0 cur r -> csv.parse_process_char r (Some c) = Raise e -> failed r0 (c :: cur) e.
Proof.
  unfold fed, failed. intros H Hc. simpl. rewrite feed_chars_app, H. simpl.
  now rewrite Hc.
Qed.

Lemma failed_cons (cur : list ascii) (c : ascii) (e : PyError) :
  failed r0 cur e -> failed r0 (c :: cur) e.
Proof.
  unfold failed. intros H. simpl. now rewrite feed_chars_app, H.
Qed.

Lemma reader_rows_line (cur : list ascii) (r : csv.ReaderObj) (rest : list string) :
  fed r0 cur r ->
  csv.reader_rows r0 (string_of_buffer cur EmptyString :: rest)
  = end_of_line r (fun r' => csv.reader_rows r' rest).
Proof.
  intros H. simpl. rewrite feed_line_buffer, H. reflexivity.
Qed.

Lemma reader_rows_line_failed (cur : list ascii) (e : PyError) (rest : list string) :
  failed r0 cur e ->
  csv.reader_rows r0 (string_of_buffer cur EmptyString :: rest) = Raise e.
Proof.
  intros H. simpl. rewrite feed_line_buffer, H. reflexivity.
Qed.

Lemma reader_rows_failed (s : string) (cur : list ascii) (e : PyError) :
  failed r0 cur e -> csv.reader_rows r0 (file_lines_from cur s) = Raise e.
Proof.
  revert cur. induction s as [|c s IH]; intros cur H.
  - destruct cur as [|c cur]; [discriminate H|].
    now apply reader_rows_line_failed.
  - rewrite file_lines_from_String. destruct (c =? csv.LF)%char.
    + apply reader_rows_line_failed. now apply failed_cons.
    + destruct (c =? csv.CR)%char.
      * destruct s as [|c' s].
        -- apply reader_rows_line_failed. now apply failed_cons.
        -- destruct (c' =? csv.LF)%char; apply reader_rows_line_failed;
             repeat apply failed_cons; assumption.
      * apply IH. now apply failed_cons.
Qed.

End Fed.

Lemma end_of_line_ext (r : csv.ReaderObj)
    (k1 k2 : csv.ReaderObj -> result (list (list string))) :
  (forall r', k1 r' = k2 r') -> end_of_line r k1 = end_of_line r k2.
Proof.
  intros H. unfold end_of_line.
  destruct (csv.parse_process_char r None) as [r'|e]; simpl; [|reflexivity].
  destruct (csv.state r'); rewrite H; reflexivity.
Qed.

Lemma scan_String (r : csv.ReaderObj) (ls : LineState) (c : ascii) (s' : string) :
  scan r ls (String c s') =
  match ls with
  | LineAfterCR =>
      if (c =? csv.LF)%char
      then r' <- csv.parse_process_char r (Some c) ;;
           end_of_line r' (fun r'' => scan r'' LineStart s')
      else end_of_line r (scan_char c s')
  | _ => scan_char c s' r
  end.
Proof. destruct ls; reflexivity. Qed.

(** The two readings of a text agree, from any point inside a line on. *)
Lemma reader_rows_scan (s : string) :
  (forall r0 cur r, fed r0 cur r ->
     csv.reader_rows r0 (file_lines_from cur s) = scan r (line_state_of cur) s) /\
  (forall r0 cur r, fed r0 (csv.CR :: cur) r ->
     csv.reader_rows r0 (file_lines_from cur (String csv.CR s))
     = scan r LineAfterCR s).
Proof.
  induction s as [|c s [IH1 IH2]].
  - split; intros r0 cur r H.
    + destruct cur as [|c cur].
      * apply fed_nil in H. now subst.
      * apply (reader_rows_line r0 _ r _ H).
    + apply (reader_rows_line r0 _ r _ H).
  - assert (P1 : forall r0 cur r, fed r0 cur r ->
              csv.reader_rows r0 (file_lines_from cur (String c s))
              = scan r (line_state_of cur) (String c s)).
    { intros r0 cur r H.
      assert (Hscan : scan r (line_state_of cur) (String c s) = scan_char c s r)
        by (rewrite scan_String; now destruct cur).
      rewrite Hscan. unfold scan_char.
      destruct (csv.parse_process_char r (Some c)) as [r'|e] eqn:Hc; simpl rbind.
      - pose proof (fed_cons r0 cur r r' c H Hc) as H'.
        rewrite file_lines_from_String.
        destruct (Ascii.eqb_spec c csv.LF) as [->|HLF].
        + rewrite (reader_rows_line r0 _ r' _ H').
          apply end_of_line_ext. intros r''.
          apply (IH1 r'' [] r''). reflexivity.
        + destruct (Ascii.eqb_spec c csv.CR) as [->|HCR].
          * rewrite <- (IH2 r0 cur r' H'). rewrite file_lines_from_String.
            reflexivity.
          * apply (IH1 r0 (c :: cur) r' H').
      - pose proof (fed_failed r0 cur r c e H Hc) as H'.
        rewrite file_lines_from_String.
        destruct (c =? csv.LF)%char.
        + now apply reader_rows_line_failed.
        + destruct (c =? csv.CR)%char.
          * destruct s as [|c' s].
            -- now apply reader_rows_line_failed.
            -- destruct (c' =? csv.LF)%char; apply reader_rows_line_failed;
                 first [exact H' | apply failed_cons; exact H'].
          * now apply reader_rows_failed. }
    split; [exact P1|].
    intros r0 cur r H. rewrite scan_String.
    change (file_lines_from cur (String csv.CR (String c s)))
      with (if (c =? csv.LF)%char
            then string_of_buffer (c :: csv.CR :: cur) EmptyString
                 :: file_lines_from [] s
            else string_of_buffer (csv.CR :: cur) EmptyString
                 :: file_lines_from [] (String c s)).
    destruct (c =? csv.LF)%char.
    + destruct (csv.parse_process_char r (Some c)) as [r'|e] eqn:Hc; simpl rbind.
      * rewrite (reader_rows_line r0 _ r' _ (fed_cons r0 _ r r' c H Hc)).
        apply end_of_line_ext. intros r''. apply (IH1 r'' [] r''). reflexivity.
      * apply reader_rows_line_failed. apply (fed_failed r0 _ r c e H Hc).
    + rewrite (reader_rows_line r0 _ r _ H).
      apply end_of_line_ext. intros r'.
      rewrite (P1 r' [] r'); [|reflexivity].
      simpl line_state_of. now rewrite scan_String.
Qed.

(** Reading the lines of a text is scanning the text. *)
Lemma reader_file_lines (content : string) :
  csv.reader (file_lines content) = scan csv.parse_reset LineStart content.
Proof.
  unfold csv.reader, file_lines.
  apply (proj1 (reader_rows_scan content) csv.parse_reset [] csv.parse_reset).
  reflexivity.
Qed.

(** ** Strings *)

Lemma string_app_assoc (a b c : string) : ((a ++ b) ++ c = a ++ (b ++ c))%string.
Proof. induction a as [|x a IH]; simpl; [reflexivity|]. now rewrite IH. Qed.

Lemma string_app_nil_r (a : string) : (a ++ EmptyString)%string = a.
Proof. induction a as [|x a IH]; simpl; [reflexivity|]. now rewrite IH. Qed.

Lemma string_of_buffer_push (f : string) (buf : list ascii) (tail : string) :
  string_of_buffer (push f buf) tail = string_of_buffer buf (f ++ tail).
Proof.
  revert buf. induction f as [|c f IH]; intros buf; simpl; [reflexivity|].
  now rewrite IH.
Qed.

Lemma len_String (c : ascii) (f : string) : len (String c f) = (len f + 1)%N.
Proof. unfold len. simpl String.length. lia. Qed.

Lemma len_Empty : len EmptyString = 0%N.
Proof. reflexivity. Qed.

(** ** The scan, step by step *)

Lemma special_false (c : ascii) :
  csv.special c = false ->
  (c =? csv.delimiter)%char = false /\ (c =? csv.quotechar)%char = false /\
  (c =? csv.CR)%char = false /\ (c =? csv.LF)%char = false.
Proof.
  unfold csv.special. intros H.
  repeat (apply orb_false_elim in H; destruct H as [H ?]). auto.
Qed.

Lemma add_char_below_limit (st : csv.ParserState) (fs : list string)
    (buf : list ascii) (n : N) (c : ascii) :
  (n < csv.field_limit)%N ->
  csv.parse_add_char (csv.mkReader st fs buf n) c
  = Ok (csv.mkReader st fs (c :: buf) (n + 1)).
Proof.
  intros H. unfold csv.parse_add_char. simpl.
  destruct (N.leb_spec csv.field_limit n); [lia|reflexivity].
Qed.

Lemma scan_first_char (st : csv.ParserState) (fs : list string) (ls : LineState)
    (c : ascii) (s' : string) :
  at_start st -> ls <> LineAfterCR -> csv.special c = false ->
  scan (csv.mkReader st fs [] 0) ls (String c s')
  = scan (csv.mkReader csv.IN_FIELD fs [c] 1) LineOpen s'.
Proof.
  intros Hst Hls Hc. apply special_false in Hc. destruct Hc as (Hd & Hq & Hcr & Hlf).
  rewrite scan_String.
  assert (E : scan_char c s' (csv.mkReader st fs [] 0)
              = scan (csv.mkReader csv.IN_FIELD fs [c] 1) LineOpen s').
  { unfold scan_char, csv.parse_process_char, csv.start_field, csv.is_newline.
    destruct Hst as [-> | ->]; simpl; rewrite ?Hlf, ?Hcr, ?Hq, ?Hd; simpl;
    rewrite ?Hlf, ?Hcr, ?Hq, ?Hd; reflexivity. }
  destruct ls; congruence.
Qed.

Lemma scan_in_field_char (fs : list string) (buf : list ascii) (n : N)
    (c : ascii) (s' : string) :
  csv.special c = false -> (n < csv.field_limit)%N ->
  scan (csv.mkReader csv.IN_FIELD fs buf n) LineOpen (String c s')
  = scan (csv.mkReader csv.IN_FIELD fs (c :: buf) (n + 1)) LineOpen s'.
Proof.
  intros Hc Hn. apply special_false in Hc. destruct Hc as (Hd & Hq & Hcr & Hlf).
  rewrite scan_String.
  unfold scan_char, csv.parse_process_char, csv.is_newline. simpl csv.state.
  cbv iota. rewrite Hlf, Hcr, Hd. simpl orb. cbv iota.
  rewrite add_char_below_limit by assumption. reflexivity.
Qed.

(** An unquoted field, from its second character on. *)
Lemma scan_unquoted (f : string) (fs : list string) (buf : list ascii) (n : N)
    (rest : string) :
  csv.has_special f = false -> (n + len f <= csv.field_limit)%N ->
  scan (csv.mkReader csv.IN_FIELD fs buf n) LineOpen (f ++ rest)
  = scan (csv.mkReader csv.IN_FIELD fs (push f buf) (n + len f)) LineOpen rest.
Proof.
  revert buf n. induction f as [|c f IH]; intros buf n Hs Hn.
  - simpl. now rewrite len_Empty, N.add_0_r.
  - simpl in Hs. apply orb_false_elim in Hs. destruct Hs as [Hc Hs].
    rewrite len_String in Hn. simpl append.
    rewrite scan_in_field_char by (assumption || lia).
    rewrite IH by (assumption || lia). simpl push.
    rewrite len_String. f_equal. f_equal. lia.
Qed.

(** Inside quotes every character but the quote is data, line ends
    included, and the end-of-line signal changes nothing. *)
Lemma scan_in_quoted_char (fs : list string) (buf : list ascii) (n : N)
    (ls : LineState) (c : ascii) (s' : string) :
  (c =? csv.quotechar)%char = false -> (n < csv.field_limit)%N ->
  scan (csv.mkReader csv.IN_QUOTED_FIELD fs buf n) ls (String c s')
  = scan (csv.mkReader csv.IN_QUOTED_FIELD fs (c :: buf) (n + 1))
         (next_line_state c) s'.
Proof.
  intros Hq Hn. rewrite scan_String.
  assert (E : scan_char c s' (csv.mkReader csv.IN_QUOTED_FIELD fs buf n)
              = scan (csv.mkReader csv.IN_QUOTED_FIELD fs (c :: buf) (n + 1))
                     (next_line_state c) s').
  { unfold scan_char, csv.parse_process_char. simpl csv.state. cbv iota.
    rewrite Hq, add_char_below_limit by assumption. simpl rbind.
    unfold next_line_state, end_of_line, csv.parse_process_char. simpl.
    destruct (c =? csv.LF)%char; [reflexivity|].
    destruct (c =? csv.CR)%char; reflexivity. }
  destruct ls; try exact E.
  destruct (c =? csv.LF)%char eqn:Hlf.
  - unfold csv.parse_process_char. simpl csv.state. cbv iota.
    rewrite Hq, add_char_below_limit by assumption. simpl rbind.
    unfold next_line_state. rewrite Hlf. reflexivity.
  - unfold end_of_line at 1. unfold csv.parse_process_char at 1. simpl. exact E.
Qed.

Lemma scan_in_quoted_quote (fs : list string) (buf : list ascii) (n : N)
    (ls : LineState) (s' : string) :
  scan (csv.mkReader csv.IN_QUOTED_FIELD fs buf n) ls (String csv.quotechar s')
  = scan (csv.mkReader csv.QUOTE_IN_QUOTED_FIELD fs buf n) LineOpen s'.
Proof.
  rewrite scan_String. destruct ls; reflexivity.
Qed.

Lemma scan_quote_quote (fs : list string) (buf : list ascii) (n : N) (s' : string) :
  (n < csv.field_limit)%N ->
  scan (csv.mkReader csv.QUOTE_IN_QUOTED_FIELD fs buf n) LineOpen
       (String csv.quotechar s')
  = scan (csv.mkReader csv.IN_QUOTED_FIELD fs (csv.quotechar :: buf) (n + 1))
         LineOpen s'.
Proof.
  intros Hn. rewrite scan_String.
  unfold scan_char, csv.parse_process_char. simpl csv.state. cbv iota.
  change (csv.quotechar =? csv.quotechar)%char with true. cbv iota.
  rewrite add_char_below_limit by assumption. reflexivity.
Qed.

Lemma string_app_String (c : ascii) (a b : string) :
  (String c a ++ b)%string = String c (a ++ b).
Proof. reflexivity. Qed.

Lemma double_quotes_String (c : ascii) (f : string) :
  csv.double_quotes (String c f) =
  if (c =? csv.quotechar)%char
  then String csv.quotechar (String csv.quotechar (csv.double_quotes f))
  else String c (csv.double_quotes f).
Proof. reflexivity. Qed.

(** A quoted field, from the character after the opening quote to the
    closing quote. *)
Lemma scan_quoted (f : string) (fs : list string) (buf : list ascii) (n : N)
    (ls : LineState) (rest : string) :
  (n + len f <= csv.field_limit)%N ->
  scan (csv.mkReader csv.IN_QUOTED_FIELD fs buf n) ls
       (csv.double_quotes f ++ String csv.quotechar rest)
  = scan (csv.mkReader csv.QUOTE_IN_QUOTED_FIELD fs (push f buf) (n + len f))
         LineOpen rest.
Proof.
  revert buf n ls. induction f as [|c f IH]; intros buf n ls Hn.
  - cbn [csv.double_quotes append push].
    rewrite scan_in_quoted_quote, len_Empty, N.add_0_r. reflexivity.
  - rewrite len_String in Hn. rewrite double_quotes_String.
    destruct (c =? csv.quotechar)%char eqn:Hq.
    + apply Ascii.eqb_eq in Hq. subst c. rewrite !string_app_String.
      rewrite scan_in_quoted_quote, scan_quote_quote by lia.
      rewrite IH by lia. simpl push. rewrite len_String.
      f_equal. f_equal. lia.
    + rewrite string_app_String.
      rewrite scan_in_quoted_char by (assumption || lia).
      rewrite IH by lia. simpl push. rewrite len_String.
      f_equal. f_equal. lia.
Qed.

Lemma scan_opening_quote (st : csv.ParserState) (fs : list string)
    (ls : LineState) (s' : string) :
  at_start st -> ls <> LineAfterCR ->
  scan (csv.mkReader st fs [] 0) ls (String csv.quotechar s')
  = scan (csv.mkReader csv.IN_QUOTED_FIELD fs [] 0) LineOpen s'.
Proof.
  intros Hst Hls. rewrite scan_String.
  destruct Hst as [-> | ->]; destruct ls; try congruence; reflexivity.
Qed.

(** The delimiter after a field stores the field and opens the next. *)
Lemma scan_delimiter (st : csv.ParserState) (fs : list string)
    (buf : list ascii) (n : N) (ls : LineState) (s' : string) :
  st = csv.START_RECORD \/ field_read st -> ls <> LineAfterCR ->
  scan (csv.mkReader st fs buf n) ls (String csv.delimiter s')
  = scan (csv.mkReader csv.START_FIELD (fs ++ [string_of_buffer buf EmptyString]) [] 0)
         LineOpen s'.
Proof.
  intros Hst Hls. rewrite scan_String.
  destruct Hst as [-> | [-> | [-> | ->]]]; destruct ls; try congruence;
    reflexivity.
Qed.

(** CR LF after a field stores the field and completes the record. *)
Lemma scan_lineterminator (st : csv.ParserState) (fs : list string)
    (buf : list ascii) (n : N) (ls : LineState) (s' : string) :
  field_read st -> ls <> LineAfterCR ->
  scan (csv.mkReader st fs buf n) ls (String csv.CR (String csv.LF s'))
  = rows <- scan csv.parse_reset LineStart s' ;;
    Ok ((fs ++ [string_of_buffer buf EmptyString]) :: rows).
Proof.
  intros Hst Hls. rewrite scan_String.
  destruct Hst as [-> | [-> | ->]]; destruct ls; try congruence; reflexivity.
Qed.

(** The text of one field.  Afterwards the buffer holds the field; the
    parser has not moved if the field is empty and unquoted, and otherwise
    is inside an unquoted field or behind a closing quote. *)
Lemma scan_field (f : string) (st : csv.ParserState) (fs : list string)
    (ls : LineState) :
  at_start st -> ls <> LineAfterCR -> (len f <= csv.field_limit)%N ->
  exists st' buf n ls',
    ls' <> LineAfterCR /\
    string_of_buffer buf EmptyString = f /\
    (st' = st /\ f = EmptyString \/
     csv.join_append_data f <> EmptyString /\
     (st' = csv.IN_FIELD \/ st' = csv.QUOTE_IN_QUOTED_FIELD)) /\
    forall rest,
      scan (csv.mkReader st fs [] 0) ls (csv.join_append_data f ++ rest)
      = scan (csv.mkReader st' fs buf n) ls' rest.
Proof.
  intros Hst Hls Hlen. unfold csv.join_append_data.
  destruct (csv.has_special f) eqn:Hs.
  - exists csv.QUOTE_IN_QUOTED_FIELD, (push f []), (0 + len f)%N, LineOpen.
    split; [discriminate|]. split.
    { now rewrite string_of_buffer_push, string_app_nil_r. }
    split; [right; split; [discriminate|auto]|]. intros rest.
    rewrite string_app_String, string_app_assoc, string_app_String.
    rewrite scan_opening_quote by assumption.
    apply scan_quoted. lia.
  - destruct f as [|c f].
    + exists st, [], 0%N, ls. repeat split; auto.
    + exists csv.IN_FIELD, (push f [c]), (1 + len f)%N, LineOpen.
      split; [discriminate|]. split.
      { now rewrite string_of_buffer_push, string_app_nil_r. }
      split; [right; split; [discriminate|auto]|]. intros rest.
      simpl in Hs. apply orb_false_elim in Hs. destruct Hs as [Hc Hs].
      rewrite len_String in Hlen. rewrite string_app_String.
      rewrite scan_first_char by assumption.
      apply scan_unquoted; [assumption|lia].
Qed.

Lemma field_read_after (st st' : csv.ParserState) (f : string) :
  st' = st /\ f = EmptyString \/
  csv.join_append_data f <> EmptyString /\
  (st' = csv.IN_FIELD \/ st' = csv.QUOTE_IN_QUOTED_FIELD) ->
  st = csv.START_FIELD \/ csv.join_append_data f <> EmptyString ->
  field_read st'.
Proof.
  unfold field_read. intros [[-> ->] | [_ [-> | ->]]] [-> | H]; auto.
  now contradiction H.
Qed.

Lemma join_fields_cons2 (f f2 : string) (fs : list string) :
  csv.join_fields (f :: f2 :: fs)
  = (csv.join_append_data f ++ String csv.delimiter (csv.join_fields (f2 :: fs)))%string.
Proof. reflexivity. Qed.

(** The fields of a record after the first, up to the line terminator. *)
Lemma scan_join_fields (fs : list string) (acc : list string) (ls : LineState)
    (rest : string) :
  fs <> [] -> ls <> LineAfterCR ->
  Forall (fun f => (len f <= csv.field_limit)%N) fs ->
  scan (csv.mkReader csv.START_FIELD acc [] 0) ls
       (csv.join_fields fs ++ String csv.CR (String csv.LF rest))
  = rows <- scan csv.parse_reset LineStart rest ;; Ok ((acc ++ fs) :: rows).
Proof.
  revert acc ls. induction fs as [|f fs IH]; intros acc ls Hne Hls Hlen;
    [congruence|].
  inversion Hlen as [|f' fs' Hf Hfs]; subst.
  destruct (scan_field f csv.START_FIELD acc ls (or_intror eq_refl) Hls Hf)
    as (st' & buf & n & ls' & Hls' & Hbuf & Hst' & Hscan).
  pose proof (field_read_after _ _ _ Hst' (or_introl eq_refl)) as Hread.
  destruct fs as [|f2 fs].
  - simpl csv.join_fields. rewrite Hscan.
    rewrite scan_lineterminator by assumption. now rewrite Hbuf.
  - rewrite join_fields_cons2, string_app_assoc, string_app_String, Hscan.
    rewrite scan_delimiter by (auto || assumption).
    rewrite IH by (congruence || assumption). rewrite Hbuf.
    now rewrite <- app_assoc.
Qed.

Lemma writerow_regular (row : list string) :
  csv.join_fields row <> EmptyString ->
  csv.writerow row = (csv.join_fields row ++ csv.lineterminator)%string.
Proof.
  unfold csv.writerow. destruct row as [|f fs]; [reflexivity|].
  destruct (csv.join_fields (f :: fs)); [congruence|reflexivity].
Qed.

(** One written row read back. *)
Lemma scan_writerow (row : list string) (rest : string) :
  Forall (fun f => (len f <= csv.field_limit)%N) row ->
  scan csv.parse_reset LineStart (csv.writerow row ++ rest)
  = rows <- scan csv.parse_reset LineStart rest ;; Ok (row :: rows).
Proof.
  intros Hlen. destruct row as [|f fs]; [reflexivity|].
  inversion Hlen as [|f' fs' Hf Hfs]; subst.
  destruct (scan_field f csv.START_RECORD [] LineStart (or_introl eq_refl)
              ltac:(discriminate) Hf)
    as (st' & buf & n & ls' & Hls' & Hbuf & Hst' & Hscan).
  destruct fs as [|f2 fs].
  - destruct Hst' as [[-> ->] | [Hne Hst']].
    + reflexivity.
    + rewrite writerow_regular by exact Hne.
      unfold csv.lineterminator. simpl csv.join_fields.
      rewrite string_app_assoc, Hscan, !string_app_String.
      rewrite scan_lineterminator
        by (assumption || (unfold field_read; tauto)).
      now rewrite Hbuf.
  - assert (Hne : csv.join_fields (f :: f2 :: fs) <> EmptyString).
    { rewrite join_fields_cons2. destruct (csv.join_append_data f); discriminate. }
    rewrite writerow_regular by assumption.
    unfold csv.lineterminator.
    rewrite join_fields_cons2, !string_app_assoc, Hscan, !string_app_String.
    rewrite scan_delimiter.
    + change (String csv.CR (String csv.LF EmptyString ++ rest))
        with (String csv.CR (String csv.LF rest)).
      rewrite scan_join_fields by (congruence || assumption).
      now rewrite Hbuf.
    + destruct Hst' as [[-> _] | [_ [-> | ->]]]; unfold field_read; auto.
    + assumption.
Qed.

Lemma concat_cons (x : string) (xs : list string) :
  String.concat EmptyString (x :: xs) = (x ++ String.concat EmptyString xs)%string.
Proof.
  destruct xs; simpl; [now rewrite string_app_nil_r|reflexivity].
Qed.

(** Every list of rows whose fields are within the field size limit is
    read back as written. *)
Lemma csv_roundtrip (rows : list (list string)) :
  Forall (Forall (fun f => (len f <= csv.field_limit)%N)) rows ->
  csv.reader (file_lines (csv.writerows rows)) = Ok rows.
Proof.
  intros H. rewrite reader_file_lines. unfold csv.writerows.
  induction H as [|row rows Hrow _ IH]; [reflexivity|].
  simpl map. rewrite concat_cons, scan_writerow by assumption.
  now rewrite IH.
Qed.

(** ** Persist, then load *)

Lemma post_init_str_bool (b : bool) : post_init (str_bool b) = b.
Proof. now destruct b. Qed.

Lemma entry_of_row_of_entry (e : CsvEntry) :
  entry_of_row (row_of_entry e) = Some (Ok e).
Proof.
  destruct e as [d s c [] []]; reflexivity.
Qed.

Lemma entries_of_rows_cons_Ok (row : list string) (rows : list (list string))
    (x : CsvEntry) (xs : list CsvEntry) :
  entry_of_row row = Some (Ok x) ->
  entries_of_rows rows = Some (Ok xs) ->
  entries_of_rows (row :: rows) = Some (Ok (x :: xs)).
Proof. intros H1 H2. simpl. now rewrite H1, H2. Qed.

Lemma entries_of_rows_of_entries (entries : list CsvEntry) :
  entries_of_rows (map row_of_entry entries) = Some (Ok entries).
Proof.
  induction entries as [|e entries IH]; [reflexivity|].
  apply entries_of_rows_cons_Ok; [apply entry_of_row_of_entry|exact IH].
Qed.

Lemma nonempty_rows_of_entries (entries : list CsvEntry) :
  csv.nonempty_rows (map row_of_entry entries) = map row_of_entry entries.
Proof.
  induction entries as [|e entries IH]; [reflexivity|].
  change (csv.nonempty_rows (map row_of_entry (e :: entries)))
    with (row_of_entry e :: csv.nonempty_rows (map row_of_entry entries)).
  now rewrite IH.
Qed.

Lemma file_content_writerows (entries : list CsvEntry) :
  file_content entries = csv.writerows (CsvFields :: map row_of_entry entries).
Proof.
  unfold file_content, csv.writerows. simpl map. now rewrite concat_cons.
Qed.

Lemma len_str_bool (b : bool) : (len (str_bool b) <= csv.field_limit)%N.
Proof. destruct b; vm_compute; discriminate. Qed.

Lemma row_of_entry_within_limit (e : CsvEntry) :
  within_field_limit e ->
  Forall (fun f => (len f <= csv.field_limit)%N) (row_of_entry e).
Proof.
  intros (Hd & Hs & Hc). unfold row_of_entry.
  repeat constructor; auto using len_str_bool.
Qed.

(** The rows the reader finds in a file just written: the header, then for
    every entry its three texts and its two flags as [True] or [False]. *)
Lemma reader_file_content (entries : list CsvEntry) :
  Forall within_field_limit entries ->
  csv.reader (file_lines (file_content entries))
  = Ok (CsvFields :: map row_of_entry entries).
Proof.
  intros H. rewrite file_content_writerows. apply csv_roundtrip.
  constructor.
  - repeat constructor; vm_compute; discriminate.
  - apply Forall_map. revert H. apply Forall_impl.
    exact row_of_entry_within_limit.
Qed.

Lemma load_file_content (entries : list CsvEntry) :
  Forall within_field_limit entries ->
  load (file_content entries) = Some (Ok entries).
Proof.
  intros H. unfold load. rewrite (reader_file_content entries H).
  change (csv.nonempty_rows (CsvFields :: map row_of_entry entries))
    with (CsvFields :: csv.nonempty_rows (map row_of_entry entries)).
  rewrite nonempty_rows_of_entries. simpl tl.
  apply entries_of_rows_of_entries.
Qed.

(** C7, as the code has it.  When the description, start time and context
    of every entry are within the reader's field size limit, the file that
    [write_entries] leaves holds the header and one row per entry with the
    flags written as [True] or [False], and [read_entries] on it returns
    the same entries in the same order. *)
Theorem persist_then_load
    (entries : list CsvEntry) (verbose : bool) (now : datetime) (w w' : World) :
  Forall within_field_limit entries ->
  snd (write_entries entries verbose now w) = Ok w' ->
  readable w' = true ->
  file w' = Some (file_content entries) /\
  csv.reader (file_lines (file_content entries))
    = Ok (CsvFields :: map row_of_entry entries) /\
  read_entries w' = Some (Ok entries).
Proof.
  intros Hlim Hw Hr.
  assert (Hfile : file w' = Some (file_content entries)).
  { unfold write_entries in Hw.
    destruct (negb (writable w)); [discriminate|].
    unfold log, bind, ret, print in Hw.
    destruct (file w), verbose; simpl in Hw; injection Hw as <-; reflexivity. }
  split; [exact Hfile|]. split; [now apply reader_file_content|].
  unfold read_entries. rewrite Hfile, Hr. now apply load_file_content.
Qed.

Lemma persist_then_load_witness :
  read_entries (mkWorld (Some (file_content scenario_A)) [] true true)
  = Some (Ok scenario_A).
Proof.
  refine (proj2 (proj2 (persist_then_load scenario_A false ten_oclock no_file_yet
                          _ _ eq_refl eq_refl))).
  repeat constructor; vm_compute; discriminate.
Defined.

(** C7, as the specification has it, fails: an entry whose description has
    131073 characters is written, and reading the file raises the error of
    the reader for a field larger than the field limit. *)
Lemma long_description_not_reloaded :
  let w' := mkWorld (Some (file_content [long_entry])) [] true true in
  snd (write_entries [long_entry] false ten_oclock no_file_yet) = Ok w' /\
  read_entries w' = Some (Raise CsvError).
Proof.
  split; [reflexivity|]. vm_compute. reflexivity.
Qed.

(** A description with quotes, a comma and a line break comes back
    unchanged. *)
Example load_quoted_description :
  load (file_content [mkCsvEntry quoted_text "09:00" "Code, review" false true])
  = Some (Ok [mkCsvEntry quoted_text "09:00" "Code, review" false true]).
Proof. reflexivity. Qed.

(** ** Times written by [strftime] *)

Lemma forallb_below (n : nat) (P : nat -> bool) :
  forallb P (seq 0 n) = true -> forall k, (k < n)%nat -> P k = true.
Proof.
  intros H k Hk. rewrite forallb_forall in H. apply H. apply in_seq. lia.
Qed.

(** A time of day written as [HH:MM] is read back by [strptime]. *)
Lemma strptime_strftime (h m s : nat) :
  (h < 24)%nat -> (m < 60)%nat ->
  strptime_HM (strftime_HM (mkdatetime h m s)) = Ok (mkdatetime h m 0).
Proof.
  intros Hh Hm.
  assert (H : forallb (fun h => forallb (fun m =>
                match strptime_HM (strftime_HM (mkdatetime h m 0)) with
                | Ok t => Nat.eqb (hour t) h && Nat.eqb (minute t) m
                          && Nat.eqb (second t) 0
                | Raise _ => false
                end) (seq 0 60)) (seq 0 24) = true)
    by (vm_compute; reflexivity).
  pose proof (forallb_below 60 _ (forallb_below 24 _ H h Hh) m Hm) as Hc.
  change (strftime_HM (mkdatetime h m s)) with (strftime_HM (mkdatetime h m 0)).
  cbv beta in Hc.
  destruct (strptime_HM (strftime_HM (mkdatetime h m 0))) as [[h' m' s']|e];
    [|discriminate].
  simpl in Hc. apply andb_prop in Hc. destruct Hc as [Hc Hs].
  apply andb_prop in Hc. destruct Hc as [Hh' Hm'].
  apply Nat.eqb_eq in Hh', Hm', Hs. now subst.
Qed.

Lemma time_to_minutes_strftime (t : datetime) :
  (hour t < 24)%nat -> (minute t < 60)%nat ->
  time_to_minutes (strftime_HM t) = Ok (now_minutes t).
Proof.
  intros Hh Hm. destruct t as [h m s]. unfold time_to_minutes.
  now rewrite strptime_strftime.
Qed.

Lemma pad2_compare (a b : nat) :
  (a < 100)%nat -> (b < 100)%nat ->
  String.compare (pad2 a) (pad2 b) = Nat.compare a b.
Proof.
  intros Ha Hb.
  assert (H : forallb (fun a => forallb (fun b =>
                match String.compare (pad2 a) (pad2 b), Nat.compare a b with
                | Eq, Eq | Lt, Lt | Gt, Gt => true
                | _, _ => false
                end) (seq 0 100)) (seq 0 100) = true)
    by (vm_compute; reflexivity).
  pose proof (forallb_below 100 _ (forallb_below 100 _ H a Ha) b Hb) as Hc.
  cbv beta in Hc.
  destruct (String.compare (pad2 a) (pad2 b)), (Nat.compare a b);
    (reflexivity || discriminate).
Qed.

Lemma strftime_compare (t1 t2 : datetime) :
  String.compare (strftime_HM t1) (strftime_HM t2) =
  match String.compare (pad2 (hour t1)) (pad2 (hour t2)) with
  | Eq => String.compare (pad2 (minute t1)) (pad2 (minute t2))
  | c => c
  end.
Proof.
  unfold strftime_HM, pad2. cbn [append String.compare].
  destruct (Ascii.compare (digit_char (hour t1 / 10)) (digit_char (hour t2 / 10)));
    try reflexivity.
  destruct (Ascii.compare (digit_char (hour t1 mod 10)) (digit_char (hour t2 mod 10)));
    reflexivity.
Qed.

(** For times written by [strftime], the order of the strings is the order
    of the times. *)
Lemma strftime_order (t1 t2 : datetime) :
  (hour t1 < 24)%nat -> (minute t1 < 60)%nat ->
  (hour t2 < 24)%nat -> (minute t2 < 60)%nat ->
  (strftime_HM t1 <=? strftime_HM t2)%string = true
  <-> now_minutes t1 <= now_minutes t2.
Proof.
  intros Hh1 Hm1 Hh2 Hm2. unfold String.leb, now_minutes.
  rewrite strftime_compare, !pad2_compare by lia.
  destruct (Nat.compare_spec (hour t1) (hour t2)) as [E|L|G].
  - destruct (Nat.compare_spec (minute t1) (minute t2)) as [E'|L'|G'];
      split; intros Hle; (reflexivity || discriminate || lia).
  - split; intros Hle; (reflexivity || lia).
  - split; intros Hle; (discriminate || lia).
Qed.

(** ** Days in time order *)

Lemma differences_nonneg (tm : list Z) :
  StronglySorted Z.le tm -> Forall (fun d => 0 <= d) (differences tm).
Proof.
  induction 1 as [|a l Hl IH Ha]; [constructor|].
  destruct l as [|b l]; [constructor|].
  rewrite differences_cons. constructor; [|exact IH].
  inversion Ha as [|b' l' Hab Hrest]; lia.
Qed.

(** When the start times do not decrease and "now" is not before the last
    of them, no duration is negative. *)
Lemma durations_nonneg (entries : list CsvEntry) (now : datetime) (ms : list Z) :
  Forall2 (fun e m => time_to_minutes (start_time e) = Ok m) entries ms ->
  StronglySorted Z.le (ms ++ [now_minutes now]) ->
  exists ds, durations entries now = Ok ds /\ Forall (fun d => 0 <= d) ds.
Proof.
  intros H Hs.
  apply (map_result_Forall2 (fun e => time_to_minutes (start_time e))) in H.
  exists (differences (ms ++ [now_minutes now])). unfold durations.
  rewrite H. split; [reflexivity|]. now apply differences_nonneg.
Qed.

(** Then the stretch factor is at least 1. *)
Lemma stretch_factor_ge_1_nonneg (entries : list CsvEntry) (ds : list Z) (sf : Q) :
  Forall (fun d => 0 <= d) ds ->
  0 < major_time ds entries ->
  stretch_factor (total_time ds entries) (major_time ds entries) = Ok sf ->
  (1 <= sf)%Q.
Proof.
  intros Hds Hpos Hsf. apply (stretch_factor_ge_1_iff _ _ _ Hpos Hsf).
  apply major_le_total. clear Hpos Hsf. revert entries.
  induction Hds as [|d ds Hd _ IH]; intros [|e es]; simpl; constructor; auto.
Qed.

(** ** Times read by [strptime] *)

Lemma digit_val_le_9 (c : ascii) : is_digit c = true -> (digit_val c <= 9)%nat.
Proof.
  unfold is_digit, digit_val. intros H. apply andb_prop in H.
  destruct H as [_ H]. apply Nat.leb_le in H. lia.
Qed.

Lemma match_H_range (s rest : string) (h : nat) :
  match_H s = Some (h, rest) -> (h < 24)%nat.
Proof.
  unfold match_H. destruct s as [|c1 s]; [discriminate|].
  destruct (is_digit c1) eqn:H1; [|discriminate].
  apply digit_val_le_9 in H1.
  destruct s as [|c2 s]; [intros H; injection H as <- _; lia|].
  destruct (is_digit c2) eqn:H2; simpl andb.
  - apply digit_val_le_9 in H2.
    destruct ((digit_val c1 =? 2)%nat && (digit_val c2 <=? 3)%nat) eqn:Ha; simpl orb.
    + apply andb_prop in Ha. destruct Ha as [Ha Hb].
      apply Nat.eqb_eq in Ha. apply Nat.leb_le in Hb.
      intros H; injection H as <- _; lia.
    + destruct (digit_val c1 <=? 1)%nat eqn:Hb.
      * apply Nat.leb_le in Hb. intros H; injection H as <- _; lia.
      * intros H; injection H as <- _; lia.
  - intros H; injection H as <- _; lia.
Qed.

Lemma match_M_range (s rest : string) (m : nat) :
  match_M s = Some (m, rest) -> (m < 60)%nat.
Proof.
  unfold match_M. destruct s as [|c1 s]; [discriminate|].
  destruct (is_digit c1) eqn:H1; [|discriminate].
  apply digit_val_le_9 in H1.
  destruct s as [|c2 s]; [intros H; injection H as <- _; lia|].
  destruct (is_digit c2) eqn:H2; simpl andb.
  - apply digit_val_le_9 in H2.
    destruct (digit_val c1 <=? 5)%nat eqn:Hb.
    + apply Nat.leb_le in Hb. intros H; injection H as <- _; lia.
    + intros H; injection H as <- _; lia.
  - intros H; injection H as <- _; lia.
Qed.

(** [strptime] returns a time of day. *)
Lemma strptime_valid_clock (t : string) (ts : datetime) :
  strptime_HM t = Ok ts -> valid_clock ts.
Proof.
  unfold strptime_HM.
  destruct (match_H t) as [[h [|c rest]]|] eqn:HH; try discriminate.
  destruct (Ascii.eqb_spec c ":"%char) as [->|Hc].
  - destruct (match_M rest) as [[m [|c' rest']]|] eqn:HM; try discriminate.
    intros H. injection H as <-. unfold valid_clock. simpl.
    apply match_H_range in HH. apply match_M_range in HM. lia.
  - destruct c as [[] [] [] [] [] [] [] []]; try discriminate;
      now contradiction Hc.
Qed.

(** The start time [add_entry] stamps on the new entry is one that
    [print_summary] can read, and it reads the time of the request. *)
Lemma add_entry_start_time_parses (args : Args.t) (now timestamp : datetime) :
  valid_clock now ->
  match Args.time args with
  | Some t => strptime_HM t
  | None => Ok now
  end = Ok timestamp ->
  time_to_minutes (strftime_HM timestamp) = Ok (now_minutes timestamp).
Proof.
  intros Hnow Ht.
  assert (Hv : valid_clock timestamp).
  { destruct (Args.time args) as [t|].
    - now apply (strptime_valid_clock t).
    - now injection Ht as <-. }
  destruct Hv as (Hh & Hm & _). now apply time_to_minutes_strftime.
Qed.

(** ** A stop entry at the end of the day *)

Lemma differences_snoc (l : list Z) (a b : Z) :
  differences (l ++ [a; b]) = differences (l ++ [a]) ++ [b - a].
Proof.
  induction l as [|x l IH]; [reflexivity|].
  destruct l as [|y l]; [reflexivity|].
  change ((x :: y :: l) ++ [a; b]) with (x :: y :: (l ++ [a; b])).
  change ((x :: y :: l) ++ [a]) with (x :: y :: (l ++ [a])).
  rewrite !differences_cons.
  change (y :: l ++ [a; b]) with ((y :: l) ++ [a; b]).
  change (y :: l ++ [a]) with ((y :: l) ++ [a]).
  now rewrite IH.
Qed.

Lemma map_result_snoc {A B} (f : A -> result B) (l : list A) (a : A) :
  map_result f (l ++ [a])
  = bs <- map_result f l ;; b <- f a ;; Ok (bs ++ [b]).
Proof.
  induction l as [|x l IH]; simpl.
  - now destruct (f a).
  - destruct (f x); simpl; [|reflexivity]. rewrite IH.
    destruct (map_result f l); simpl; [|reflexivity].
    now destruct (f a).
Qed.

(** The durations of a day and of the same day with one more entry at the
    end: the new entry takes the time up to "now". *)
Lemma durations_snoc (entries : list CsvEntry) (e : CsvEntry) (now : datetime) :
  durations (entries ++ [e]) now =
  ms <- map_result (fun e => time_to_minutes (start_time e)) entries ;;
  m <- time_to_minutes (start_time e) ;;
  Ok (differences (ms ++ [m]) ++ [now_minutes now - m]).
Proof.
  unfold durations. rewrite map_result_snoc.
  destruct (map_result _ entries) as [ms|err]; cbn [rbind]; [|reflexivity].
  destruct (time_to_minutes (start_time e)) as [m|err]; cbn [rbind]; [|reflexivity].
  rewrite <- app_assoc.
  change ([m] ++ [now_minutes now]) with [m; now_minutes now].
  now rewrite differences_snoc.
Qed.

Lemma print_summary_unfold (entries : list CsvEntry) (now : datetime) (ds : list Z) :
  durations entries now = Ok ds ->
  print_summary entries now =
  match stretch_factor (total_time ds entries) (major_time ds entries) with
  | Ok sf =>
      ([OutText "Major Entries";
        OutMajor (major_entries entries ds sf);
        OutText "Sums across contexts";
        OutContexts (contextEntries (major_entries entries ds sf));
        OutTotalHours (sum_Q (map MajorEntry.hours (major_entries entries ds sf)))],
       Ok tt)
  | Raise e => ([], Raise e)
  end.
Proof.
  intros Hd. unfold print_summary. rewrite Hd.
  unfold lift at 1. unfold bind at 1.
  now destruct (stretch_factor _ _).
Qed.

(** X24.  When the last entry of the day is a stop entry, the summary does not
    depend on when it is printed: the time that has passed since the stop
    counts for nothing. *)
Lemma summary_after_stop (entries : list CsvEntry) (e : CsvEntry)
    (now1 now2 : datetime) :
  is_finish e = true ->
  print_summary (entries ++ [e]) now1 = print_summary (entries ++ [e]) now2.
Proof.
  intros Hf.
  pose proof (durations_snoc entries e now1) as H1.
  pose proof (durations_snoc entries e now2) as H2.
  destruct (map_result (fun e => time_to_minutes (start_time e)) entries)
    as [ms|err] eqn:Hms; simpl in H1, H2.
  - destruct (time_to_minutes (start_time e)) as [m|err]; simpl in H1, H2.
    + assert (Hlen : List.length (differences (ms ++ [m])) = List.length entries).
      { rewrite differences_length, length_app. simpl.
        apply (map_result_Forall2 (fun e => time_to_minutes (start_time e))) in Hms.
        apply Forall2_length in Hms. lia. }
      rewrite (print_summary_unfold _ _ _ H1), (print_summary_unfold _ _ _ H2).
      rewrite !(total_time_skip_finish e [] _ [] Hf entries _ Hlen).
      rewrite !(major_time_skip_finish e [] _ [] Hf entries _ Hlen).
      destruct (stretch_factor _ _) as [sf|err]; [|reflexivity].
      now rewrite !(major_entries_skip_finish e [] _ [] Hf entries _ sf Hlen).
    + unfold print_summary. now rewrite H1, H2.
  - unfold print_summary. now rewrite H1, H2.
Qed.

(** * Further properties *)

(** ** Times *)

(** X1.  The text [add_entry] writes for a time of day reads back as that
    time: [strptime] of [strftime] of a clock time gives its hour and minute
    (the seconds are gone), and [time_to_minutes] gives its minutes since
    midnight. *)
Theorem strftime_then_strptime (t : datetime) :
  valid_clock t ->
  strptime_HM (strftime_HM t) = Ok (mkdatetime (hour t) (minute t) 0) /\
  time_to_minutes (strftime_HM t) = Ok (now_minutes t).
Proof.
  intros (Hh & Hm & _). split.
  - destruct t as [h m s]. now apply strptime_strftime.
  - now apply time_to_minutes_strftime.
Qed.

Lemma strftime_then_strptime_witness :
  time_to_minutes (strftime_HM (mkdatetime 9 5 42)) = Ok 545.
Proof.
  refine (proj2 (strftime_then_strptime (mkdatetime 9 5 42) _)).
  unfold valid_clock. simpl. lia.
Defined.

Lemma strptime_raises_ValueError (t : string) (e : PyError) :
  strptime_HM t = Raise e -> e = ValueError.
Proof.
  unfold strptime_HM.
  destruct (match_H t) as [[h [|c rest]]|]; try congruence.
  destruct c as [[] [] [] [] [] [] [] []]; try congruence.
  destruct (match_M rest) as [[m [|c' rest']]|]; congruence.
Qed.

Lemma time_to_minutes_parsed (t : string) (m : Z) :
  time_to_minutes t = Ok m ->
  exists ts, strptime_HM t = Ok ts /\ valid_clock ts /\ m = now_minutes ts.
Proof.
  unfold time_to_minutes. intros H.
  destruct (strptime_HM t) as [ts|e] eqn:Ht; [|discriminate].
  exists ts. split; [reflexivity|]. split; [now apply (strptime_valid_clock t)|].
  unfold rbind in H. unfold now_minutes. congruence.
Qed.

(** X2.  Whenever [time_to_minutes] returns, the result is a minute of the
    day: at least 0 and below 1440. *)
Theorem time_to_minutes_range (t : string) (m : Z) :
  time_to_minutes t = Ok m -> 0 <= m < 1440.
Proof.
  intros H. destruct (time_to_minutes_parsed t m H) as (ts & _ & Hv & ->).
  destruct Hv as (Hh & Hm & _). unfold now_minutes. lia.
Qed.

Lemma time_to_minutes_range_witness : 0 <= 1439 < 1440.
Proof.
  apply (time_to_minutes_range "23:59" 1439). reflexivity.
Defined.

(** ** Days written by the program *)

Lemma written_parses (e : CsvEntry) :
  written e -> time_to_minutes (start_time e) = Ok (minutes_or_zero e).
Proof.
  intros (t & (Hh & Hm & _) & Hs). unfold minutes_or_zero.
  rewrite Hs, time_to_minutes_strftime by assumption. reflexivity.
Qed.

Lemma written_order (a b : CsvEntry) :
  written a -> written b ->
  (start_time a <=? start_time b)%string = true ->
  minutes_or_zero a <= minutes_or_zero b.
Proof.
  intros (ta & (Hha & Hma & _) & Hsa) (tb & (Hhb & Hmb & _) & Hsb) Hle.
  unfold minutes_or_zero.
  rewrite Hsa, Hsb, !time_to_minutes_strftime by assumption.
  rewrite Hsa, Hsb in Hle. now apply strftime_order in Hle.
Qed.

Lemma sorted_snoc (l : list Z) (x : Z) :
  StronglySorted Z.le l -> Forall (fun m => m <= x) l ->
  StronglySorted Z.le (l ++ [x]).
Proof.
  induction 1 as [|a l Hl IH Ha]; intros Hx; simpl.
  - repeat constructor.
  - inversion Hx as [|a' l' Hax Hlx]; subst. constructor; [now apply IH|].
    apply Forall_app. split; [assumption|]. now constructor.
Qed.

(** X3.  For entries whose start times were written by [add_entry], the
    order of the texts is the order of the times: after the sort by start
    time every start time can be read, the minutes are in ascending order,
    and when none of them lies after "now" the durations are computed and
    none is negative. *)
Theorem written_day_in_time_order (entries : list CsvEntry) (now : datetime) :
  Forall written entries ->
  exists ms,
    Forall2 (fun e m => time_to_minutes (start_time e) = Ok m)
            (sort_by_start_time entries) ms /\
    StronglySorted Z.le ms /\
    (Forall (fun m => m <= now_minutes now) ms ->
     exists ds,
       durations (sort_by_start_time entries) now = Ok ds /\
       Forall (fun d => 0 <= d) ds).
Proof.
  intros Hw.
  pose proof (sort_sorted (fun e => start_time e) entries) as Hs.
  apply (Permutation_Forall (sort_Permutation (fun e => start_time e) entries)) in Hw.
  fold sort_by_start_time in Hs, Hw.
  set (l := sort_by_start_time entries) in *. clearbody l.
  exists (map minutes_or_zero l).
  assert (Hparse : Forall2 (fun e m => time_to_minutes (start_time e) = Ok m)
                     l (map minutes_or_zero l)).
  { clear Hs. induction Hw as [|e l He _ IH]; simpl; constructor; auto.
    now apply written_parses. }
  assert (Hsorted : StronglySorted Z.le (map minutes_or_zero l)).
  { clear Hparse. revert Hw.
    induction Hs as [|e l Hl IH He]; intros Hw; simpl; [constructor|].
    inversion Hw as [|e' l' Hwe Hwl]; subst.
    constructor; [now apply IH|].
    apply Forall_map. rewrite Forall_forall in He, Hwl |- *. intros b Hb.
    apply written_order; [assumption|now apply Hwl|now apply He]. }
  split; [exact Hparse|]. split; [exact Hsorted|].
  intros Hnow. apply (durations_nonneg l now _ Hparse).
  now apply sorted_snoc.
Qed.

Lemma written_day_in_time_order_witness :
  exists ms,
    Forall2 (fun e m => time_to_minutes (start_time e) = Ok m)
            (sort_by_start_time unsorted_day) ms /\
    StronglySorted Z.le ms /\
    (Forall (fun m => m <= now_minutes ten_oclock) ms ->
     exists ds,
       durations (sort_by_start_time unsorted_day) ten_oclock = Ok ds /\
       Forall (fun d => 0 <= d) ds).
Proof.
  apply (written_day_in_time_order unsorted_day ten_oclock).
  repeat apply Forall_cons; try apply Forall_nil.
  - exists (mkdatetime 9 45 0). unfold valid_clock. simpl. repeat split; lia.
  - exists (mkdatetime 9 0 0). unfold valid_clock. simpl. repeat split; lia.
Defined.

(** ** The durations of a day *)

Lemma last_cons_default (l : list Z) (a b : Z) : last (b :: l) a = last l b.
Proof.
  revert a b. induction l as [|c l IH]; intros a b; [reflexivity|].
  change (last (b :: c :: l) a) with (last (c :: l) a).
  now rewrite !IH.
Qed.

Lemma sum_differences (a : Z) (l : list Z) :
  sum_Z (differences (a :: l)) = last l a - a.
Proof.
  revert a. induction l as [|b l IH]; intros a.
  - unfold sum_Z. simpl. lia.
  - rewrite differences_cons, sum_Z_cons, IH, last_cons_default. lia.
Qed.

Lemma total_time_no_finish (ds : list Z) (entries : list CsvEntry) :
  List.length ds = List.length entries ->
  Forall (fun e => is_finish e = false) entries ->
  total_time ds entries = sum_Z ds.
Proof.
  intros Hlen H. revert ds Hlen.
  induction H as [|e es He _ IH]; intros [|d ds] Hlen; try discriminate.
  - reflexivity.
  - rewrite total_time_cons, sum_Z_cons, He, IH; [reflexivity|].
    now injection Hlen.
Qed.

(** X4.  The durations of a day add up to the time from the first start to
    "now", whatever the order of the entries in between; when the day has no
    finish entry this is also the total time of the summary. *)
Theorem durations_sum (e : CsvEntry) (es : list CsvEntry) (now : datetime)
    (m : Z) (ms : list Z) :
  Forall2 (fun e m => time_to_minutes (start_time e) = Ok m) (e :: es) (m :: ms) ->
  exists ds,
    durations (e :: es) now = Ok ds /\
    sum_Z ds = now_minutes now - m /\
    (Forall (fun e => is_finish e = false) (e :: es) ->
     total_time ds (e :: es) = now_minutes now - m).
Proof.
  intros H. pose proof (Forall2_length H) as Hlen.
  apply (map_result_Forall2 (fun e => time_to_minutes (start_time e))) in H.
  exists (differences ((m :: ms) ++ [now_minutes now])).
  unfold durations. rewrite H.
  assert (Hsum : sum_Z (differences ((m :: ms) ++ [now_minutes now]))
                 = now_minutes now - m).
  { change ((m :: ms) ++ [now_minutes now]) with (m :: (ms ++ [now_minutes now])).
    rewrite sum_differences, last_last. reflexivity. }
  split; [reflexivity|]. split; [exact Hsum|].
  intros Hf. rewrite total_time_no_finish; [exact Hsum| |exact Hf].
  rewrite differences_length, length_app. simpl in *. lia.
Qed.

Lemma durations_sum_witness :
  exists ds,
    durations scenario_A ten_oclock = Ok ds /\
    sum_Z ds = now_minutes ten_oclock - 540 /\
    (Forall (fun e => is_finish e = false) scenario_A ->
     total_time ds scenario_A = now_minutes ten_oclock - 540).
Proof.
  apply (durations_sum _ _ ten_oclock 540 [570; 585]).
  repeat constructor.
Defined.

Lemma differences_bounded (tm : list Z) (b : Z) :
  Forall (fun m => 0 <= m < b) tm ->
  Forall (fun d => - b < d < b) (differences tm).
Proof.
  induction 1 as [|x l Hx Hl IH]; [constructor|].
  destruct l as [|y l]; [constructor|].
  rewrite differences_cons. constructor; [|exact IH].
  inversion Hl; lia.
Qed.

(** X5.  Every duration lies strictly between minus one day and one day:
    the code never sees the date, so no task counts for 24 hours or more. *)
Theorem durations_within_a_day (entries : list CsvEntry) (now : datetime)
    (ds : list Z) :
  valid_clock now ->
  durations entries now = Ok ds ->
  Forall (fun d => -1440 < d < 1440) ds.
Proof.
  intros (Hh & Hm & _) Hd. unfold durations in Hd.
  destruct (map_result _ entries) as [ms|e] eqn:Hms; [|discriminate].
  unfold rbind in Hd. injection Hd as <-.
  apply (differences_bounded _ 1440). apply Forall_app. split.
  - apply (map_result_Forall2 (fun e => time_to_minutes (start_time e))) in Hms.
    induction Hms as [|e m es ms' Hem _ IH]; constructor; auto.
    destruct (time_to_minutes_parsed _ _ Hem) as (ts & _ & (Hh' & Hm' & _) & ->).
    unfold now_minutes. lia.
  - constructor; [|constructor]. unfold now_minutes. lia.
Qed.

Lemma durations_within_a_day_witness :
  Forall (fun d => -1440 < d < 1440) [-45; 60].
Proof.
  apply (durations_within_a_day unsorted_day ten_oclock).
  - unfold valid_clock. simpl. lia.
  - reflexivity.
Defined.

(** ** A start time that cannot be read *)

Lemma map_result_raises {A B} (f : A -> result B) (l : list A) (err : PyError) :
  (forall a e, f a = Raise e -> e = err) ->
  Exists (fun a => exists e, f a = Raise e) l ->
  map_result f l = Raise err.
Proof.
  intros Honly H. induction H as [a l (e & He)|a l _ IH]; simpl.
  - rewrite He. simpl. now rewrite (Honly a e He).
  - destruct (f a) as [b|e] eqn:Ha; simpl.
    + now rewrite IH.
    + now rewrite (Honly a e Ha).
Qed.

(** X6.  One start time that cannot be read as [HH:MM] makes the whole
    summary fail: [print_summary] raises [ValueError] before it prints
    anything, and [print_entries] raises it after the table of the entries. *)
Theorem print_summary_bad_start_time (entries : list CsvEntry) (now : datetime) :
  Exists (fun e => forall m, time_to_minutes (start_time e) <> Ok m) entries ->
  print_summary entries now = ([], Raise ValueError) /\
  print_entries entries now = ([OutEntries "" entries], Raise ValueError).
Proof.
  intros H.
  assert (Hd : durations entries now = Raise ValueError).
  { unfold durations.
    rewrite (map_result_raises (fun e => time_to_minutes (start_time e)) entries ValueError).
    - reflexivity.
    - intros e err. unfold time_to_minutes.
      destruct (strptime_HM (start_time e)) as [ts|err'] eqn:Hs; [discriminate|].
      simpl. intros Herr. injection Herr as <-.
      now apply (strptime_raises_ValueError (start_time e)).
    - revert H. apply Exists_impl. intros e He.
      destruct (time_to_minutes (start_time e)) as [m|err] eqn:Ht.
      + now contradiction (He m).
      + now exists err. }
  assert (Hp : print_summary entries now = ([], Raise ValueError))
    by (unfold print_summary; now rewrite Hd).
  split; [exact Hp|]. unfold print_entries. now rewrite Hp.
Qed.

Lemma print_summary_bad_start_time_witness :
  print_summary hand_edited_day ten_oclock = ([], Raise ValueError) /\
  print_entries hand_edited_day ten_oclock
  = ([OutEntries "" hand_edited_day], Raise ValueError).
Proof.
  apply (print_summary_bad_start_time hand_edited_day ten_oclock).
  apply Exists_cons_tl, Exists_cons_hd. intros m. vm_compute. discriminate.
Defined.

(** ** After a stop *)

Lemma summary_after_stop_witness :
  print_summary ([first_task] ++ [stop_entry]) ten_oclock
  = print_summary ([first_task] ++ [stop_entry]) (mkdatetime 23 59 0).
Proof.
  apply (summary_after_stop [first_task] stop_entry). reflexivity.
Defined.

(** ** Major records *)

Lemma is_major_alt (e : CsvEntry) :
  is_major e = negb (is_finish e || is_minor e).
Proof. unfold is_major. now destruct (is_finish e), (is_minor e). Qed.

(** X7.  The summary has one record for every entry that is neither minor
    nor a finish entry, in the order of the entries, with the description and
    the context of its entry; the original minutes of the records add up to
    the major time. *)
Theorem major_entries_of_major (entries : list CsvEntry) (ds : list Z) (sf : Q) :
  List.length ds = List.length entries ->
  map MajorEntry.description (major_entries entries ds sf)
    = map description (filter is_major entries) /\
  map MajorEntry.context (major_entries entries ds sf)
    = map context (filter is_major entries) /\
  sum_Z (map MajorEntry.original_minutes (major_entries entries ds sf))
    = major_time ds entries.
Proof.
  revert ds. induction entries as [|e es IH]; intros [|d ds] Hlen;
    try discriminate.
  - repeat split.
  - injection Hlen as Hlen. destruct (IH ds Hlen) as (Hd & Hc & Hs).
    rewrite major_entries_cons, major_time_cons.
    cbn [filter]. rewrite is_major_alt.
    destruct (is_finish e || is_minor e); cbn [negb map].
    + repeat split; assumption.
    + rewrite Hd, Hc, sum_Z_cons, Hs. repeat split.
Qed.

Lemma major_entries_of_major_witness :
  map MajorEntry.description (major_entries scenario_A durations_A (4 # 3))
  = map description (filter is_major scenario_A).
Proof.
  exact (proj1 (major_entries_of_major scenario_A durations_A (4 # 3) eq_refl)).
Defined.

Lemma major_entries_nonneg (entries : list CsvEntry) (ds : list Z) (sf : Q) :
  Forall (fun d => 0 <= d) ds ->
  Forall (fun r => 0 <= MajorEntry.original_minutes r) (major_entries entries ds sf).
Proof.
  intros H. revert entries. induction H as [|d ds Hd _ IH]; intros [|e es].
  - constructor.
  - constructor.
  - constructor.
  - rewrite major_entries_cons. destruct (is_finish e || is_minor e); [apply IH|].
    constructor; [exact Hd|apply IH].
Qed.

Lemma major_entries_fields (entries : list CsvEntry) (ds : list Z) (sf : Q) :
  Forall (fun r =>
            MajorEntry.minutes r = (inject_Z (MajorEntry.original_minutes r) * sf)%Q /\
            MajorEntry.hours r = (MajorEntry.minutes r / inject_Z 60)%Q)
         (major_entries entries ds sf).
Proof.
  unfold major_entries. apply Forall_map. apply Forall_forall.
  intros [e d] _. split; reflexivity.
Qed.

(** X8.  With no negative duration and some major time, no record loses
    time in the redistribution: the adjusted minutes of a record are at least
    its original minutes, and its hours are its adjusted minutes over 60
    (floats modelled by rationals). *)
Theorem adjusted_minutes_only_grow (entries : list CsvEntry) (ds : list Z) (sf : Q) :
  Forall (fun d => 0 <= d) ds ->
  0 < major_time ds entries ->
  stretch_factor (total_time ds entries) (major_time ds entries) = Ok sf ->
  Forall (fun r =>
            (inject_Z (MajorEntry.original_minutes r) <= MajorEntry.minutes r)%Q /\
            (MajorEntry.hours r == MajorEntry.minutes r / inject_Z 60)%Q)
         (major_entries entries ds sf).
Proof.
  intros Hds Hpos Hsf.
  pose proof (stretch_factor_ge_1_nonneg entries ds sf Hds Hpos Hsf) as Hge.
  pose proof (major_entries_nonneg entries ds sf Hds) as Hnn.
  pose proof (major_entries_fields entries ds sf) as Hf.
  rewrite Forall_forall in *. intros r Hr.
  destruct (Hf r Hr) as [Hm Hh]. specialize (Hnn r Hr). split.
  - rewrite Hm.
    apply Qle_trans with (1 * inject_Z (MajorEntry.original_minutes r))%Q;
      [rewrite Qmult_1_l; apply Qle_refl|].
    rewrite (Qmult_comm (inject_Z (MajorEntry.original_minutes r)) sf).
    apply Qmult_le_compat_r; [exact Hge|].
    change 0%Q with (inject_Z 0). now rewrite <- Zle_Qle.
  - rewrite Hh. reflexivity.
Qed.

Lemma adjusted_minutes_only_grow_witness :
  Forall (fun r =>
            (inject_Z (MajorEntry.original_minutes r) <= MajorEntry.minutes r)%Q /\
            (MajorEntry.hours r == MajorEntry.minutes r / inject_Z 60)%Q)
         (major_entries scenario_A durations_A (inject_Z 60 / inject_Z 45)%Q).
Proof.
  apply (adjusted_minutes_only_grow scenario_A durations_A
           (inject_Z 60 / inject_Z 45)%Q).
  - repeat constructor; simpl; intros; lia.
  - reflexivity.
  - reflexivity.
Defined.

(** ** Sums over the groups of a list *)

Section GroupSums.
Context {M : Type} (eqM : M -> M -> Prop) (add : M -> M -> M) (zero : M).
Context (eqM_equiv : Equivalence eqM)
        (add_proper : Proper (eqM ==> eqM ==> eqM) add)
        (add_assoc_l : forall a b c, eqM (add a (add b c)) (add (add a b) c))
        (add_comm : forall a b, eqM (add a b) (add b a))
        (add_zero_l : forall a, eqM (add zero a) a).

Local Notation "'total' l" := (fold_left add l zero) (at level 10, l at level 9).

Lemma add_assoc (a b c : M) : eqM (add (add a b) c) (add a (add b c)).
Proof. symmetry. apply add_assoc_l. Qed.

Lemma fold_left_add_acc (l : list M) (a : M) :
  eqM (fold_left add l a) (add a (total l)).
Proof.
  revert a. induction l as [|x l IH]; intros a; simpl.
  - now rewrite add_comm, add_zero_l.
  - rewrite (IH (add a x)), (IH (add zero x)).
    now rewrite add_zero_l, add_assoc.
Qed.

Lemma total_cons (x : M) (l : list M) : eqM (total (x :: l)) (add x (total l)).
Proof. simpl. now rewrite fold_left_add_acc, add_zero_l. Qed.

Lemma total_map_ext {C} (g h : C -> M) (cs : list C) :
  (forall c, In c cs -> eqM (g c) (h c)) ->
  eqM (total (map g cs)) (total (map h cs)).
Proof.
  induction cs as [|c cs IH]; intros H; [reflexivity|].
  simpl map. rewrite !total_cons, (H c) by now left.
  rewrite IH; [reflexivity|]. intros c' Hc'. apply H. now right.
Qed.

Lemma total_map_add {C} (g h : C -> M) (cs : list C) :
  eqM (total (map (fun c => add (g c) (h c)) cs))
      (add (total (map g cs)) (total (map h cs))).
Proof.
  induction cs as [|c cs IH]; simpl map.
  - now rewrite add_zero_l.
  - rewrite !total_cons, IH.
    rewrite !add_assoc. apply add_proper; [reflexivity|].
    rewrite <- !add_assoc. apply add_proper; [|reflexivity].
    apply add_comm.
Qed.

Lemma total_map_zero {C} (cs : list C) :
  eqM (total (map (fun _ => zero) cs)) zero.
Proof.
  induction cs as [|c cs IH]; [reflexivity|].
  simpl map. now rewrite total_cons, IH, add_zero_l.
Qed.

(** One of the distinct labels [cs] is hit exactly once. *)
Lemma total_indicator (cs : list string) (c0 : string) (v : M) :
  NoDup cs ->
  eqM (total (map (fun c => if (c0 =? c)%string then v else zero) cs))
      (if in_dec string_dec c0 cs then v else zero).
Proof.
  induction 1 as [|c cs Hc Hnd IH]; [reflexivity|].
  simpl map. rewrite total_cons, IH.
  destruct (String.eqb_spec c0 c) as [->|Hne].
  - destruct (in_dec string_dec c (c :: cs)) as [_|Hn]; [|now contradiction Hn; left].
    destruct (in_dec string_dec c cs) as [Hin|_]; [contradiction|].
    now rewrite add_comm, add_zero_l.
  - rewrite add_zero_l.
    destruct (in_dec string_dec c0 cs) as [Hin|Hn];
      destruct (in_dec string_dec c0 (c :: cs)) as [Hin'|Hn']; try reflexivity.
    + contradiction Hn'. now right.
    + destruct Hin' as [E|Hin']; [now contradiction Hne|contradiction].
Qed.

(** The sums of the groups add up to the sum of the list, provided every
    label of the list is among the distinct labels [cs]. *)
Lemma total_by_group {A} (key : A -> string) (f : A -> M) (l : list A)
    (cs : list string) :
  NoDup cs ->
  (forall a, In a l -> In (key a) cs) ->
  eqM (total (map (fun c => total (map f (filter (fun a => key a =? c)%string l))) cs))
      (total (map f l)).
Proof.
  intros Hnd. induction l as [|x l IH]; intros Hin.
  - simpl. apply total_map_zero.
  - change (map f (x :: l)) with (f x :: map f l).
    rewrite total_cons, <- IH by (intros a Ha; apply Hin; now right).
    rewrite <- (total_map_ext
                  (fun c => add (if (key x =? c)%string then f x else zero)
                                (total (map f (filter (fun a => key a =? c)%string l))))).
    + rewrite total_map_add, total_indicator by assumption.
      destruct (in_dec string_dec (key x) cs) as [_|Hn]; [reflexivity|].
      contradiction Hn. apply Hin. now left.
    + intros c _. simpl filter. destruct (key x =? c)%string.
      * simpl map. now rewrite total_cons.
      * now rewrite add_zero_l.
Qed.

End GroupSums.

(** ** Sums across contexts *)

Lemma set_of_NoDup (l : list string) : NoDup (set_of l).
Proof. apply NoDup_nodup. Qed.

Lemma set_of_In (l : list string) (c : string) : In c (set_of l) <-> In c l.
Proof. apply nodup_In. Qed.

Lemma contextEntries_map {B} (g : ContextEntry.t -> B) (major : list MajorEntry.t) :
  map g (contextEntries major)
  = map (fun c =>
           g (ContextEntry.mk c
                (sum_Z (map MajorEntry.original_minutes (filter (in_context c) major)))
                (sum_Q (map MajorEntry.minutes (filter (in_context c) major)))
                (sum_Q (map MajorEntry.hours (filter (in_context c) major)))
                (set_of (map MajorEntry.description (filter (in_context c) major)))))
        (set_of (map MajorEntry.context major)).
Proof. unfold contextEntries. apply map_map. Qed.

(** X9.  Grouping by context loses no minute and counts none twice: the
    original minutes of the context records add up to the original minutes of
    the major records. *)
Theorem context_sums_add_up (major : list MajorEntry.t) :
  sum_Z (map ContextEntry.original_minutes (contextEntries major))
  = sum_Z (map MajorEntry.original_minutes major).
Proof.
  assert (Hin : forall r, In r major ->
                  In (MajorEntry.context r) (set_of (map MajorEntry.context major))).
  { intros r Hr. apply set_of_In. now apply in_map. }
  rewrite !contextEntries_map. cbn [ContextEntry.original_minutes]. unfold sum_Z.
  apply (total_by_group eq Z.add 0 _ _ Z.add_assoc Z.add_comm Z.add_0_l
           MajorEntry.context MajorEntry.original_minutes major);
    [apply set_of_NoDup|exact Hin].
Qed.

(** X10.  There is exactly one context record for every context that occurs
    among the major records and none for any other; the tasks of a context
    record are the descriptions of the major records of that context, each
    listed once, and there is at least one. *)
Theorem context_entries_cover_the_contexts (major : list MajorEntry.t) :
  NoDup (map ContextEntry.context (contextEntries major)) /\
  (forall c, In c (map ContextEntry.context (contextEntries major))
             <-> exists r, In r major /\ MajorEntry.context r = c) /\
  Forall (fun ce =>
            NoDup (ContextEntry.tasks ce) /\
            ContextEntry.tasks ce <> [] /\
            forall t, In t (ContextEntry.tasks ce)
                      <-> exists r, In r major /\
                                    MajorEntry.context r = ContextEntry.context ce /\
                                    MajorEntry.description r = t)
         (contextEntries major).
Proof.
  assert (Hctx : map ContextEntry.context (contextEntries major)
                 = set_of (map MajorEntry.context major)).
  { rewrite contextEntries_map. cbn [ContextEntry.context]. apply map_id. }
  assert (Hmem : forall c, In c (set_of (map MajorEntry.context major))
                           <-> exists r, In r major /\ MajorEntry.context r = c).
  { intros c. rewrite set_of_In, in_map_iff. split; intros (r & H1 & H2); eauto. }
  split; [rewrite Hctx; apply set_of_NoDup|].
  split; [intros c; rewrite Hctx; apply Hmem|].
  unfold contextEntries. apply Forall_map. apply Forall_forall. intros c Hc.
  cbn [ContextEntry.tasks ContextEntry.context].
  assert (Htask : forall t,
            In t (set_of (map MajorEntry.description (filter (in_context c) major)))
            <-> exists r, In r major /\ MajorEntry.context r = c
                          /\ MajorEntry.description r = t).
  { intros t. rewrite set_of_In, in_map_iff. unfold in_context. split.
    - intros (r & Hd & Hr). apply filter_In in Hr. destruct Hr as [Hr Hk].
      apply String.eqb_eq in Hk. eauto.
    - intros (r & Hr & Hk & Hd). exists r. split; [assumption|].
      apply filter_In. split; [assumption|]. now apply String.eqb_eq. }
  split; [apply set_of_NoDup|]. split; [|exact Htask].
  apply Hmem in Hc. destruct Hc as (r & Hr & Hk).
  intros Hnil.
  assert (Hin : In (MajorEntry.description r)
                   (set_of (map MajorEntry.description (filter (in_context c) major))))
    by (apply Htask; eauto).
  rewrite Hnil in Hin. contradiction.
Qed.

(** ** Sorting what is sorted *)

Lemma sort_of_sorted (entries : list CsvEntry) :
  sorted_by_start_time entries -> sort_by_start_time entries = entries.
Proof.
  intros H. apply (stable_sorted_unique (fun e => start_time e)).
  - apply sort_sorted.
  - exact H.
  - intros k. apply sort_stable.
Qed.

(** X11.  Sorting by start time twice is sorting once, and a list that is
    in order already is left as it is: the sort [main] does after every load
    never reorders a file that [write_entries] wrote. *)
Theorem sort_by_start_time_idempotent (entries : list CsvEntry) :
  sort_by_start_time (sort_by_start_time entries) = sort_by_start_time entries /\
  (sorted_by_start_time entries -> sort_by_start_time entries = entries).
Proof.
  split; [|apply sort_of_sorted].
  apply sort_of_sorted. apply (sort_sorted (fun e => start_time e)).
Qed.

(** ** Where the new entry goes *)

Section Threshold.
Variable e : CsvEntry.
Local Notation "'not_after'" := (not_after e).
Local Notation "'after'" := (after e).

Lemma sorted_filter (p : CsvEntry -> bool) (l : list CsvEntry) :
  sorted_by_start_time l -> sorted_by_start_time (filter p l).
Proof.
  induction 1 as [|x l Hl IH Hx]; simpl; [constructor|].
  destruct (p x); [|exact IH]. constructor; [exact IH|].
  rewrite Forall_forall in *. intros y Hy. apply Hx.
  now apply filter_In in Hy.
Qed.

Lemma sorted_app (l1 l2 : list CsvEntry) :
  sorted_by_start_time l1 -> sorted_by_start_time l2 ->
  (forall x y, In x l1 -> In y l2 ->
               (start_time x <=? start_time y)%string = true) ->
  sorted_by_start_time (l1 ++ l2).
Proof.
  induction 1 as [|x l Hl IH Hx]; intros H2 H12; simpl; [exact H2|].
  constructor.
  - apply IH; [exact H2|]. intros a b Ha Hb. apply H12; [now right|exact Hb].
  - apply Forall_app. split; [exact Hx|].
    apply Forall_forall. intros y Hy. apply H12; [now left|exact Hy].
Qed.

Lemma after_spec (x : CsvEntry) :
  after x = true ->
  (start_time e <=? start_time x)%string = true /\ start_time e <> start_time x.
Proof.
  unfold after, not_after. intros H. apply negb_true_iff in H.
  apply string_leb_false in H. destruct H as [H1 H2]. split; [exact H1|congruence].
Qed.

Lemma filter_key_split (k : string) (l : list CsvEntry) :
  filter (has_key (fun x => start_time x) k) (filter not_after l)
  ++ filter (has_key (fun x => start_time x) k) (filter after l)
  = filter (has_key (fun x => start_time x) k) l.
Proof.
  induction l as [|x l IH]; [reflexivity|].
  simpl filter. unfold after at 1.
  destruct (not_after x) eqn:Hx; simpl negb; cbn iota.
  - simpl filter. destruct (has_key _ k x); simpl; now rewrite IH.
  - simpl filter. destruct (has_key _ k x) eqn:Hk; [|exact IH].
    rewrite <- IH.
    (* every entry with the key of [x] comes after [e]: the first part is empty *)
    assert (Hempty : filter (has_key (fun x => start_time x) k) (filter not_after l) = []).
    { clear IH. induction l as [|y l IHl]; [reflexivity|].
      simpl filter. destruct (not_after y) eqn:Hy; [|exact IHl].
      simpl filter. destruct (has_key _ k y) eqn:Hky; [|exact IHl].
      unfold has_key in Hk, Hky. apply String.eqb_eq in Hk, Hky.
      unfold not_after in Hx, Hy. congruence. }
    now rewrite Hempty.
Qed.

(** A sorted list with [e] put after the entries that are not later than
    it: what sorting the list with [e] appended gives. *)
Lemma sort_snoc (l : list CsvEntry) :
  sorted_by_start_time l ->
  sort_by_start_time (l ++ [e]) = filter not_after l ++ e :: filter after l.
Proof.
  intros Hl. apply (stable_sorted_unique (fun x => start_time x)).
  - apply sort_sorted.
  - apply sorted_app.
    + now apply sorted_filter.
    + constructor; [now apply sorted_filter|].
      apply Forall_forall. intros y Hy. apply filter_In in Hy.
      now apply after_spec.
    + intros x y Hx Hy. apply filter_In in Hx. destruct Hx as [_ Hx].
      unfold not_after in Hx. destruct Hy as [<-|Hy]; [exact Hx|].
      apply filter_In in Hy. destruct Hy as [_ Hy]. apply after_spec in Hy.
      now apply (string_leb_trans _ (start_time e)).
  - intros k. unfold sort_by_start_time. rewrite sort_stable.
    rewrite !filter_app. simpl filter.
    destruct (has_key (fun x => start_time x) k e) eqn:Hk.
    + assert (Hnone : filter (has_key (fun x => start_time x) k) (filter after l) = []).
      { clear Hl. induction l as [|y l IHl]; [reflexivity|].
        simpl filter. destruct (after y) eqn:Hy; [|exact IHl].
        simpl filter. destruct (has_key _ k y) eqn:Hky; [|exact IHl].
        apply after_spec in Hy. unfold has_key in Hk, Hky.
        apply String.eqb_eq in Hk, Hky. destruct Hy as [_ Hy]. congruence. }
      rewrite <- (filter_key_split k l), Hnone, !app_nil_r. reflexivity.
    + now rewrite app_nil_r, filter_key_split.
Qed.

Lemma sorted_split (l : list CsvEntry) :
  sorted_by_start_time l -> l = filter not_after l ++ filter after l.
Proof.
  intros Hl. apply (stable_sorted_unique (fun x => start_time x)).
  - exact Hl.
  - apply sorted_app; try now apply sorted_filter.
    intros x y Hx Hy. apply filter_In in Hx, Hy.
    destruct Hx as [_ Hx]. destruct Hy as [_ Hy]. apply after_spec in Hy.
    now apply (string_leb_trans _ (start_time e)).
  - intros k. now rewrite filter_app, filter_key_split.
Qed.

End Threshold.

Lemma add_entry_result (entries : list CsvEntry) (args : Args.t) (now : datetime) :
  snd (add_entry entries args now) =
  timestamp <- request_time args now ;;
  Ok (sort_by_start_time (entries ++ [appended_entry args timestamp])).
Proof.
  unfold add_entry, request_time, appended_entry.
  destruct (match Args.time args with Some t => strptime_HM t | None => Ok now end)
    as [ts|err]; [|reflexivity].
  unfold lift, bind, log, ret, print.
  destruct (Args.verbose args), (negb (Args.stop args)); reflexivity.
Qed.

(** X12.  Added to a list that is in order, the new entry lands after
    every entry that starts at its time or before (equal times included) and
    in front of every entry that starts later; the other entries keep their
    places.  So [--time] can put an entry in the middle of the day. *)
Theorem add_entry_position
    (entries : list CsvEntry) (args : Args.t) (now timestamp : datetime) :
  sorted_by_start_time entries ->
  request_time args now = Ok timestamp ->
  exists e before later,
    e = appended_entry args timestamp /\
    snd (add_entry entries args now) = Ok (before ++ e :: later) /\
    entries = before ++ later /\
    Forall (fun x => (start_time x <=? start_time e)%string = true) before /\
    Forall (fun x => (start_time x <=? start_time e)%string = false) later.
Proof.
  intros Hs Ht. set (e := appended_entry args timestamp).
  exists e, (filter (not_after e) entries), (filter (after e) entries).
  split; [reflexivity|]. split.
  { rewrite add_entry_result, Ht. cbn [rbind]. fold e. now rewrite sort_snoc. }
  split; [now apply sorted_split|]. split.
  - apply Forall_forall. intros x Hx. now apply filter_In in Hx.
  - apply Forall_forall. intros x Hx. apply filter_In in Hx.
    destruct Hx as [_ Hx]. unfold after in Hx. now apply negb_true_iff in Hx.
Qed.

Lemma add_entry_position_witness :
  exists e before later,
    e = appended_entry stop_request (mkdatetime 17 0 0) /\
    snd (add_entry [first_task] stop_request (mkdatetime 17 0 0))
      = Ok (before ++ e :: later) /\
    [first_task] = before ++ later /\
    Forall (fun x => (start_time x <=? start_time e)%string = true) before /\
    Forall (fun x => (start_time x <=? start_time e)%string = false) later.
Proof.
  apply (add_entry_position [first_task] stop_request (mkdatetime 17 0 0)).
  - repeat constructor.
  - reflexivity.
Defined.

(** X13.  [add_entry] never drops or changes an entry: when it returns,
    the list holds the old entries and one new entry, in some order. *)
Theorem add_entry_keeps_entries
    (entries : list CsvEntry) (args : Args.t) (now : datetime)
    (entries' : list CsvEntry) :
  snd (add_entry entries args now) = Ok entries' ->
  exists e, Permutation (entries ++ [e]) entries' /\
            List.length entries' = S (List.length entries).
Proof.
  rewrite add_entry_result.
  destruct (request_time args now) as [ts|err]; [|discriminate].
  cbn [rbind]. intros H. injection H as <-.
  exists (appended_entry args ts).
  pose proof (sort_Permutation (fun x => start_time x)
                (entries ++ [appended_entry args ts])) as Hp.
  split; [exact Hp|].
  apply Permutation_length in Hp. unfold sort_by_start_time. rewrite <- Hp.
  rewrite length_app. simpl. lia.
Qed.

Lemma add_entry_keeps_entries_witness :
  exists e, Permutation ([first_task] ++ [e]) day_with_stop /\
            List.length day_with_stop = 2%nat.
Proof.
  apply (add_entry_keeps_entries [first_task] stop_request (mkdatetime 17 0 0)).
  reflexivity.
Defined.

(** ** The reader and the field size limit *)















(** ** Rows that are too long *)

(** X15.  A row with more than five fields anywhere in the file makes the
    load fail with [TypeError]: the constructor of [CsvEntry] refuses the
    extra key that [DictReader] adds for the fields beyond the names. *)
Theorem long_row_raises (rows : list (list string)) :
  Exists (fun row => (5 < List.length row)%nat) rows ->
  entries_of_rows rows = Some (Raise TypeError).
Proof.
  induction 1 as [row rows Hlong|row rows _ IH].
  - simpl. destruct row as [|d [|s [|c [|f [|m [|x row]]]]]]; simpl in Hlong; try lia.
    reflexivity.
  - simpl. rewrite IH.
    destruct (entry_of_row row) as [[x|e]|] eqn:Hrow; try reflexivity.
    destruct row as [|d [|s [|c [|f [|m [|x' row]]]]]]; simpl in Hrow;
      congruence.
Qed.

Lemma long_row_raises_witness :
  entries_of_rows [row_of_entry first_task;
                   ["a"; "09:00"; "c"; "False"; "False"; "x"]%string]
  = Some (Raise TypeError).
Proof.
  apply long_row_raises. apply Exists_cons_tl, Exists_cons_hd. simpl. lia.
Defined.

(** ** The header *)

(** X16.  The first row of the file is taken for the header and dropped
    whatever it holds: a file of rows of entries under any first row that is
    not empty loads as those entries.  A file written without a header loses
    its first entry. *)
Theorem first_row_is_dropped (row : list string) (entries : list CsvEntry) :
  row <> [] ->
  Forall (fun f => (len f <= csv.field_limit)%N) row ->
  Forall within_field_limit entries ->
  load (csv.writerows (row :: map row_of_entry entries)) = Some (Ok entries).
Proof.
  intros Hrow Hlen H. unfold load. rewrite csv_roundtrip.
  - destruct row as [|f row]; [now contradiction Hrow|].
    change (csv.nonempty_rows ((f :: row) :: map row_of_entry entries))
      with ((f :: row) :: csv.nonempty_rows (map row_of_entry entries)).
    rewrite nonempty_rows_of_entries. simpl tl.
    apply entries_of_rows_of_entries.
  - constructor; [exact Hlen|].
    apply Forall_map. revert H. apply Forall_impl.
    exact row_of_entry_within_limit.
Qed.

Lemma first_row_is_dropped_witness :
  load (csv.writerows (row_of_entry first_task :: map row_of_entry [stop_entry]))
  = Some (Ok [stop_entry]).
Proof.
  apply (first_row_is_dropped (row_of_entry first_task) [stop_entry]).
  - discriminate.
  - repeat constructor; vm_compute; discriminate.
  - repeat constructor; vm_compute; discriminate.
Defined.

(** ** Tables *)

Lemma replicate_length (n : nat) (c : ascii) : String.length (replicate n c) = n.
Proof. induction n as [|n IH]; simpl; [reflexivity|]. now rewrite IH. Qed.

Lemma string_length_app (a b : string) :
  String.length (a ++ b) = (String.length a + String.length b)%nat.
Proof. induction a as [|c a IH]; simpl; [reflexivity|]. now rewrite IH. Qed.

Lemma ljust_length (s : string) (w : nat) :
  (String.length s <= w)%nat -> String.length (ljust s w) = w.
Proof.
  intros H. unfold ljust. rewrite string_length_app, replicate_length. lia.
Qed.

Lemma join_cons2 (sep x y : string) (l : list string) :
  join sep (x :: y :: l) = (x ++ sep ++ join sep (y :: l))%string.
Proof. reflexivity. Qed.

Lemma join_length (sep : string) (l : list string) :
  String.length (join sep l)
  = (list_sum (map String.length l)
     + String.length sep * (List.length l - 1))%nat.
Proof.
  induction l as [|x [|y l] IH].
  - simpl. lia.
  - simpl. lia.
  - rewrite join_cons2, !string_length_app, IH.
    change (map String.length (x :: y :: l))
      with (String.length x :: map String.length (y :: l)).
    simpl list_sum. simpl List.length. lia.
Qed.

Lemma fold_left_rows {A} (g : A -> string) (l : list A) (s : string) :
  fold_left (fun s a => (s ++ g a ++ newline)%string) l s
  = (s ++ unlines (map g l))%string.
Proof.
  revert s. induction l as [|a l IH]; intros s; simpl.
  - now rewrite string_app_nil_r.
  - rewrite IH. now rewrite !string_app_assoc.
Qed.

Lemma Forall2_le_refl (l : list nat) : Forall2 le l l.
Proof. induction l; constructor; auto. Qed.

Lemma Forall2_le_trans (a b c : list nat) :
  Forall2 le a b -> Forall2 le b c -> Forall2 le a c.
Proof.
  intros H. revert c. induction H as [|x y a b Hxy _ IH]; intros c Hc.
  - inversion Hc. constructor.
  - inversion Hc as [|y' z b' c' Hyz Hbc]; subst. constructor; [lia|now apply IH].
Qed.

Lemma Forall2_length_eq {A B} (R : A -> B -> Prop) (a : list A) (b : list B) :
  Forall2 R a b -> List.length a = List.length b.
Proof. induction 1; simpl; congruence. Qed.

Section FormatTableFacts.
Context {V : Type}.
Variable format : V -> string.

Lemma entry_length_length (entry : list (string * V)) :
  List.length (entry_length format entry) = List.length entry.
Proof. apply length_map. Qed.

Lemma widen_spec (widths : list nat) (entry : list (string * V)) :
  List.length widths = List.length entry ->
  Forall2 le widths (widen format widths entry) /\
  Forall2 le (entry_length format entry) (widen format widths entry).
Proof.
  unfold widen. rewrite <- (entry_length_length entry).
  generalize (entry_length format entry) as l. clear entry.
  induction widths as [|w ws IH]; intros [|x l] Hlen; try discriminate.
  - split; constructor.
  - injection Hlen as Hlen. destruct (IH l Hlen) as [H1 H2].
    split; constructor; (lia || assumption).
Qed.

Lemma fold_widen (n : nat) (entries : list (list (string * V))) :
  Forall (fun entry => List.length entry = n) entries ->
  forall widths, List.length widths = n ->
  Forall2 le widths (fold_left (widen format) entries widths) /\
  Forall (fun entry => Forall2 le (entry_length format entry)
                         (fold_left (widen format) entries widths)) entries.
Proof.
  induction 1 as [|entry entries Hentry _ IH]; intros widths Hw; simpl.
  - split; [apply Forall2_le_refl|constructor].
  - destruct (widen_spec widths entry) as [H1 H2]; [congruence|].
    destruct (IH (widen format widths entry)) as [H3 H4].
    { apply Forall2_length_eq in H1. congruence. }
    split; [now apply (Forall2_le_trans _ _ _ H1)|].
    constructor; [now apply (Forall2_le_trans _ _ _ H2)|exact H4].
Qed.

Lemma row_cells_widths (widths : list nat) (entry : list (string * V)) :
  Forall2 le (entry_length format entry) widths ->
  map String.length (row_cells format widths entry) = widths.
Proof.
  unfold row_cells, entry_length. revert widths.
  induction entry as [|[k v] entry IH]; intros widths H; inversion H; subst.
  - reflexivity.
  - simpl. rewrite IH by assumption. rewrite ljust_length by lia. reflexivity.
Qed.

Lemma header_cells_widths (widths : list nat) (entry : list (string * V)) :
  Forall2 le (entry_length format entry) widths ->
  map String.length (header_cells entry widths) = widths.
Proof.
  unfold header_cells, entry_length. revert widths.
  induction entry as [|[k v] entry IH]; intros widths H; inversion H; subst.
  - reflexivity.
  - simpl. rewrite IH by assumption. rewrite ljust_length by lia. reflexivity.
Qed.

Lemma rule_cells_widths (widths : list nat) :
  map String.length (rule_cells widths) = widths.
Proof.
  unfold rule_cells. induction widths as [|w ws IH]; simpl; [reflexivity|].
  now rewrite replicate_length, IH.
Qed.

Lemma column_widths_spec (first : list (string * V))
    (rest : list (list (string * V))) :
  Forall (fun entry => List.length entry = List.length first) rest ->
  List.length (column_widths format first (first :: rest)) = List.length first /\
  Forall (fun entry => Forall2 le (entry_length format entry)
                         (column_widths format first (first :: rest)))
         (first :: rest).
Proof.
  intros H. unfold column_widths.
  destruct (fold_widen (List.length first) (first :: rest)) with
    (widths := repeat 0%nat (List.length first)) as [H1 H2].
  - now constructor.
  - apply repeat_length.
  - split; [|exact H2]. apply Forall2_length_eq in H1.
    rewrite <- H1. apply repeat_length.
Qed.

Lemma table_cells_widths (first : list (string * V))
    (rest : list (list (string * V))) :
  Forall (fun entry => List.length entry = List.length first) rest ->
  Forall (fun cells => map String.length cells
                       = column_widths format first (first :: rest))
         (table_cells format first (first :: rest)).
Proof.
  intros H. destruct (column_widths_spec first rest H) as [_ Hle].
  unfold table_cells. constructor; [|constructor].
  - apply header_cells_widths. now inversion Hle.
  - apply rule_cells_widths.
  - apply Forall_map. revert Hle. apply Forall_impl.
    intros entry. apply row_cells_widths.
Qed.

Lemma format_table_dict_cells (first : list (string * V))
    (rest : list (list (string * V))) :
  format_table_dict format (first :: rest)
  = unlines (map (join " ") (table_cells format first (first :: rest))).
Proof.
  unfold format_table_dict, table_cells.
  rewrite (fold_left_rows (fun entry => join " " (row_cells format _ entry))).
  cbn [map unlines]. rewrite !string_app_assoc, map_map. reflexivity.
Qed.

End FormatTableFacts.

(** X17.  The table is aligned.  For dictionaries with as many items as
    the first one, the text is a header line, a rule and one line per entry,
    each ended by a line feed and made of cells with one space between them;
    there is one column per item, the cells of a column have the same width
    in every line, and so all lines are equally long. *)
Theorem format_table_dict_aligned {V} (format : V -> string)
    (first : list (string * V)) (rest : list (list (string * V))) :
  Forall (fun entry => List.length entry = List.length first) rest ->
  let widths := column_widths format first (first :: rest) in
  let cells := table_cells format first (first :: rest) in
  format_table_dict format (first :: rest) = unlines (map (join " ") cells) /\
  List.length widths = List.length first /\
  Forall (fun line => map String.length line = widths) cells /\
  Forall (fun line =>
            String.length (join " " line)
            = (list_sum widths + (List.length first - 1))%nat) cells.
Proof.
  intros H. cbv zeta.
  pose proof (table_cells_widths format first rest H) as Hc.
  destruct (column_widths_spec format first rest H) as [Hlen _].
  split; [apply format_table_dict_cells|]. split; [exact Hlen|].
  split; [exact Hc|]. revert Hc. apply Forall_impl. intros line Hline.
  rewrite join_length, Hline.
  replace (List.length line) with (List.length first).
  - change (String.length " ") with 1%nat. lia.
  - rewrite <- Hlen, <- Hline. now rewrite length_map.
Qed.

Lemma format_table_dict_aligned_witness :
  List.length (column_widths format (asdict first_task)
                 (asdict first_task :: [asdict stop_entry]))
  = List.length (asdict first_task).
Proof.
  refine (proj1 (proj2 (format_table_dict_aligned format (asdict first_task)
                          [asdict stop_entry] _))).
  repeat constructor.
Defined.

(** ** The table of the entries *)

Lemma longest_cons (n : nat) (t : string) (texts : list string) :
  longest n (t :: texts) = longest (Nat.max n (String.length t)) texts.
Proof. reflexivity. Qed.

Lemma str_bool_length (b : bool) : (String.length (str_bool b) <= 5)%nat.
Proof. destruct b; simpl; lia. Qed.

Lemma widen_asdict (a b c : nat) (e : CsvEntry) :
  (11 <= a)%nat -> (10 <= b)%nat -> (7 <= c)%nat ->
  widen format [a; b; c; 9; 8]%nat (asdict e)
  = [Nat.max a (String.length (description e));
     Nat.max b (String.length (start_time e));
     Nat.max c (String.length (context e)); 9; 8]%nat.
Proof.
  intros Ha Hb Hc. unfold widen, entry_length, asdict.
  cbn [map combine format]. pose proof (str_bool_length (is_finish e)).
  pose proof (str_bool_length (is_minor e)).
  change (String.length "description") with 11%nat.
  change (String.length "start_time") with 10%nat.
  change (String.length "context") with 7%nat.
  change (String.length "is_finish") with 9%nat.
  change (String.length "is_minor") with 8%nat.
  repeat (f_equal; try lia).
Qed.

Lemma fold_widen_asdict (es : list CsvEntry) (a b c : nat) :
  (11 <= a)%nat -> (10 <= b)%nat -> (7 <= c)%nat ->
  fold_left (widen format) (map asdict es) [a; b; c; 9; 8]%nat
  = [longest a (map description es); longest b (map start_time es);
     longest c (map context es); 9; 8]%nat.
Proof.
  revert a b c. induction es as [|e es IH]; intros a b c Ha Hb Hc.
  - reflexivity.
  - cbn [map fold_left]. rewrite widen_asdict by assumption.
    rewrite IH by lia. now rewrite !longest_cons.
Qed.

Lemma column_widths_asdict (e : CsvEntry) (es : list CsvEntry) :
  column_widths format (asdict e) (map asdict (e :: es)) = entry_widths (e :: es).
Proof.
  unfold column_widths, entry_widths.
  change (repeat 0%nat (List.length (asdict e))) with [0; 0; 0; 0; 0]%nat.
  cbn [map fold_left].
  assert (H0 : widen format [0; 0; 0; 0; 0]%nat (asdict e)
               = [Nat.max 11 (String.length (description e));
                  Nat.max 10 (String.length (start_time e));
                  Nat.max 7 (String.length (context e)); 9; 8]%nat).
  { unfold widen, entry_length, asdict. cbn [map combine format].
    pose proof (str_bool_length (is_finish e)).
    pose proof (str_bool_length (is_minor e)).
    change (String.length "description") with 11%nat.
    change (String.length "start_time") with 10%nat.
    change (String.length "context") with 7%nat.
    change (String.length "is_finish") with 9%nat.
    change (String.length "is_minor") with 8%nat.
    repeat (f_equal; try lia). }
  rewrite H0, fold_widen_asdict by lia. now rewrite !longest_cons.
Qed.

Lemma row_cells_map {V} (f : V -> string) (l : list V) (widths : list nat) :
  map (fun '(e, w) => ljust (f e) w) (combine l widths)
  = map (fun '(t, w) => ljust t w) (combine (map f l) widths).
Proof.
  revert widths. induction l as [|x l IH]; intros [|w ws]; simpl;
    try reflexivity.
  now rewrite IH.
Qed.

Lemma row_cells_asdict (widths : list nat) (e : CsvEntry) :
  join " " (row_cells format widths (asdict e)) = padded (row_of_entry e) widths.
Proof. unfold row_cells, padded. now rewrite row_cells_map. Qed.

Lemma header_cells_asdict (widths : list nat) (e : CsvEntry) :
  join " " (header_cells (asdict e) widths) = padded CsvFields widths.
Proof. reflexivity. Qed.

(** X18.  The table of a list of entries: the header holds the five field
    names, the rows hold the three texts of each entry and its flags as
    [True] or [False], nothing is cut off, and every text is filled up with
    spaces to the width of its column.  A text column is as wide as its
    longest text or its title, whichever is longer; the flag columns are 9
    and 8 characters wide. *)
Theorem format_table_layout (e : CsvEntry) (es : list CsvEntry) :
  let entries := e :: es in
  let widths := entry_widths entries in
  format_table entries
  = unlines (padded CsvFields widths
             :: join " " (map (fun w => replicate w "-") widths)
             :: map (fun x => padded (row_of_entry x) widths) entries).
Proof.
  cbv zeta. unfold format_table. change (map asdict (e :: es))
    with (asdict e :: map asdict es).
  rewrite format_table_dict_cells. unfold table_cells.
  change (asdict e :: map asdict es) with (map asdict (e :: es)).
  rewrite column_widths_asdict.
  cbn [map]. rewrite header_cells_asdict, row_cells_asdict.
  rewrite !map_map. reflexivity.
Qed.

(** ** Runs of the program *)

Lemma snd_bind {A B} (m : Run A) (f : A -> Run B) :
  snd (bind m f) = (a <- snd m ;; snd (f a)).
Proof.
  destruct m as [out [a|e]]; simpl; [|reflexivity]. now destruct (f a).
Qed.

Lemma snd_log (verbose : bool) (msg detail : string) :
  snd (log verbose msg detail) = Ok tt.
Proof. now destruct verbose. Qed.

Lemma write_entries_result (entries : list CsvEntry) (verbose : bool)
    (now : datetime) (w : World) :
  snd (write_entries entries verbose now w) =
  if negb (writable w) then Raise OSError
  else Ok (mkWorld (Some (file_content entries))
                   match file w with
                   | Some old => (strftime_HMS now, old) :: backup w
                   | None => backup w
                   end
                   (readable w) (writable w)).
Proof.
  unfold write_entries. destruct (negb (writable w)); [reflexivity|].
  destruct (file w) as [old|]; rewrite !snd_bind, ?snd_log; cbn [rbind ret snd];
    rewrite ?snd_bind, ?snd_log; reflexivity.
Qed.

(** What the body of the program ends with, whatever it prints. *)
Lemma body_result (args : Args.t) (now : datetime) (w : World)
    (loaded : result (list CsvEntry)) :
  read_entries w = Some loaded ->
  option_map snd (body args now w) = Some (
    entries <- loaded ;;
    match Args.mode args with
    | Some ModeWrite =>
        entries' <- snd (add_entry (sort_by_start_time entries) args now) ;;
        snd (write_entries entries' (Args.verbose args) now w)
    | Some ModeRead =>
        _ <- snd (print_entries (sort_by_start_time entries) now) ;; Ok w
    | None => Ok w
    end).
Proof.
  intros Hr. unfold body. rewrite Hr. cbn [option_map]. f_equal.
  rewrite !snd_bind, !snd_log. cbn [rbind].
  unfold lift. cbn [snd]. destruct loaded as [entries|e]; [|reflexivity].
  cbn [rbind]. rewrite snd_bind.
  destruct (Args.verbose args); cbn [print ret snd rbind];
    (destruct (Args.mode args) as [[|]|];
     [now rewrite snd_bind
     |rewrite !snd_bind;
      destruct (snd (add_entry (sort_by_start_time entries) _ now));
      cbn [rbind]; [now rewrite snd_bind|reflexivity]
     |reflexivity]).
Qed.

Lemma main_of_body_result (args : Args.t) (now : datetime) (w : World)
    (r : result World) :
  option_map snd (body args now w) = Some r ->
  exists p, main args now w = Some p /\
            exit_status p = 0 /\
            world p = world_after w r /\
            forall e, r = Raise e -> reports p e.
Proof.
  unfold main. destruct (body args now w) as [[out [w'|e]]|]; cbn [option_map snd];
    intros H; try discriminate; injection H as <-; eexists; split;
    try reflexivity; cbn [exit_status world stdout world_after];
    repeat split; try discriminate.
  intros e' He'. injection He' as <-. now exists out.
Qed.

Lemma main_defined (args : Args.t) (now : datetime) (w : World) (p : Process) :
  main args now w = Some p ->
  exists r, option_map snd (body args now w) = Some r /\ world p = world_after w r.
Proof.
  unfold main. destruct (body args now w) as [[out [w'|e]]|]; intros H;
    try discriminate; injection H as <-; eexists; split; reflexivity.
Qed.

(** X19.  A run that is not in write mode leaves the file and the backups
    as they were, whether the summary succeeds or fails. *)
Theorem read_mode_changes_nothing (args : Args.t) (now : datetime) (w : World)
    (p : Process) :
  Args.mode args <> Some ModeWrite ->
  main args now w = Some p ->
  world p = w.
Proof.
  intros Hm Hp. destruct (main_defined args now w p Hp) as (r & Hr & ->).
  destruct (read_entries w) as [loaded|] eqn:Hl.
  - rewrite (body_result args now w loaded Hl) in Hr. injection Hr as <-.
    destruct loaded as [entries|e]; [|reflexivity]. cbn [rbind].
    destruct (Args.mode args) as [[|]|]; try reflexivity.
    + now destruct (snd (print_entries (sort_by_start_time entries) now)).
    + now contradiction Hm.
  - unfold body in Hr. rewrite Hl in Hr. discriminate.
Qed.

Lemma read_mode_changes_nothing_witness :
  exists p, main read_request ten_oclock no_file_yet = Some p /\
            world p = no_file_yet.
Proof.
  eexists. split; [reflexivity|].
  apply (read_mode_changes_nothing read_request ten_oclock no_file_yet);
    [discriminate|reflexivity].
Defined.

Lemma add_entry_with_verbose (b : bool) (entries : list CsvEntry)
    (args : Args.t) (now : datetime) :
  snd (add_entry entries (with_verbose b args) now)
  = snd (add_entry entries args now).
Proof. now rewrite !add_entry_result. Qed.

(** X20.  The verbose flag only adds output: with it or without it the
    body of the program ends with the same result or the same exception, and
    the run leaves the same file, the same backups and the same exit
    status. *)
Theorem verbose_only_prints (b : bool) (args : Args.t) (now : datetime) (w : World) :
  option_map snd (body (with_verbose b args) now w)
    = option_map snd (body args now w) /\
  option_map world (main (with_verbose b args) now w)
    = option_map world (main args now w) /\
  option_map exit_status (main (with_verbose b args) now w)
    = option_map exit_status (main args now w).
Proof.
  assert (Hb : option_map snd (body (with_verbose b args) now w)
               = option_map snd (body args now w)).
  { destruct (read_entries w) as [loaded|] eqn:Hl.
    - rewrite !(body_result _ now w loaded Hl). f_equal.
      destruct loaded as [entries|e]; [|reflexivity]. cbn [rbind].
      change (Args.mode (with_verbose b args)) with (Args.mode args).
      destruct (Args.mode args) as [[|]|]; try reflexivity.
      rewrite add_entry_with_verbose.
      destruct (snd (add_entry (sort_by_start_time entries) args now));
        [|reflexivity].
      cbn [rbind]. now rewrite !write_entries_result.
    - unfold body. now rewrite Hl. }
  split; [exact Hb|].
  unfold main.
  destruct (body (with_verbose b args) now w) as [[out1 r1]|];
    destruct (body args now w) as [[out2 r2]|]; cbn [option_map snd] in Hb;
    try discriminate; [|split; reflexivity].
  injection Hb as ->. destruct r2; split; reflexivity.
Qed.






(** X22.  A [--time] that cannot be read as [HH:MM] aborts the write: the
    run reports [ValueError] and leaves the file and the backups as they
    were. *)
Theorem bad_time_aborts_the_write (args : Args.t) (now : datetime) (w : World)
    (old : list CsvEntry) (t : string) :
  Args.mode args = Some ModeWrite ->
  Args.time args = Some t ->
  (forall ts, strptime_HM t <> Ok ts) ->
  read_entries w = Some (Ok old) ->
  exists p, main args now w = Some p /\
            reports p ValueError /\
            world p = w /\
            exit_status p = 0.
Proof.
  intros Hm Ht Hbad Hl.
  pose proof (body_result args now w (Ok old) Hl) as Hb.
  cbn [rbind] in Hb. rewrite Hm, add_entry_result in Hb.
  unfold request_time in Hb. rewrite Ht in Hb.
  destruct (strptime_HM t) as [ts|e] eqn:Hs; [now contradiction (Hbad ts)|].
  apply strptime_raises_ValueError in Hs. subst e. cbn [rbind] in Hb.
  destruct (main_of_body_result args now w _ Hb) as (p & Hp & Hx & Hworld & Hrep).
  exists p. repeat split; auto.
Qed.

Lemma bad_time_aborts_the_write_witness :
  exists p, main bad_time_request ten_oclock no_file_yet = Some p /\
            reports p ValueError /\
            world p = no_file_yet /\
            exit_status p = 0.
Proof.
  apply (bad_time_aborts_the_write bad_time_request ten_oclock no_file_yet []
           (match Args.time bad_time_request with Some t => t | None => EmptyString end));
    try reflexivity.
  intros ts. vm_compute. discriminate.
Defined.

(** X23.  Reading a day without entries (no file yet, or only the header)
    fails: the run prints the empty table of entries and then reports
    [ZeroDivisionError], as there is no major time to divide by. *)
Theorem read_before_any_entry (args : Args.t) (now : datetime) (w : World) :
  Args.mode args = Some ModeRead ->
  read_entries w = Some (Ok []) ->
  exists p, main args now w = Some p /\
            reports p ZeroDivisionError /\
            world p = w /\
            stdout p
            = (if Args.verbose args
               then [OutLog "Arguments: " ""; OutLog "Opening" ""; OutEntries "Entries" []]
               else [])
              ++ [OutEntries "" []; OutError ZeroDivisionError;
                  OutTraceback ZeroDivisionError].
Proof.
  intros Hm Hl. unfold main, body. rewrite Hl, Hm.
  destruct (Args.verbose args); eexists; (split; [reflexivity|]);
    (split; [eexists; reflexivity|]); split; reflexivity.
Qed.

Lemma read_before_any_entry_witness :
  exists p, main read_request ten_oclock no_file_yet = Some p /\
            reports p ZeroDivisionError /\
            world p = no_file_yet /\
            stdout p
            = (if Args.verbose read_request
               then [OutLog "Arguments: " ""; OutLog "Opening" ""; OutEntries "Entries" []]
               else [])
              ++ [OutEntries "" []; OutError ZeroDivisionError;
                  OutTraceback ZeroDivisionError].
Proof.
  apply (read_before_any_entry read_request ten_oclock no_file_yet);
    reflexivity.
Defined.
